(** * Gide command engine: argument variables, command buffers, key chords

    A shallow embedding of the parts of [argvars.go] and [gide/gide.go] that
    the command-execution engine rests on, with the properties that were
    checked on them.

    Conventions.
    - A Go [[]byte] is a [list ascii]; a Go [string] is a [string]. Indices
      and lengths are Go [int]s, kept as [Z]; [bytes.Index] answers [-1]
      when there is no occurrence, exactly as in Go.
    - A Go map that may be [nil] is an [option (gmap _ _)]: reading a nil map
      finds nothing, [make] turns it into [Some ∅].
    - A loop whose termination is not evident from its text is run with
      fuel: [None] means "still iterating after that many rounds". *)

From Stdlib Require Import ZArith Lia Ascii String.
From stdpp Require Import base option list gmap strings pretty.

Local Open Scope Z_scope.

(** ** Byte slices *)

Module Bytes.

Definition bytes := list ascii.

(** [[]byte(s)] and [string(b)]. *)
Definition of_string (s : string) : bytes := String.list_ascii_of_string s.
Definition to_string (b : bytes) : string := String.string_of_list_ascii b.

(** [len(b)]. *)
Definition len (b : bytes) : Z := Z.of_nat (length b).

(** [b[i:]], [b[:j]], [b[i:j]] and [b[i]]. Every use below is in range. *)
Definition slice_from (b : bytes) (i : Z) : bytes := drop (Z.to_nat i) b.
Definition slice_to (b : bytes) (j : Z) : bytes := take (Z.to_nat j) b.
Definition slice (b : bytes) (i j : Z) : bytes :=
  take (Z.to_nat (j - i)) (drop (Z.to_nat i) b).
Definition at_ (b : bytes) (i : Z) : option ascii := b !! Z.to_nat i.

(** [bytes.HasPrefix(s, p)]. *)
Fixpoint HasPrefix (s p : bytes) : bool :=
  match p, s with
  | [], _ => true
  | _ :: _, [] => false
  | y :: p', x :: s' => if Ascii.eqb x y then HasPrefix s' p' else false
  end.

(** [bytes.Index(s, sep)], counting from offset [i]. *)
Fixpoint Index_from (i : Z) (s sep : bytes) : Z :=
  if HasPrefix s sep then i
  else match s with
       | [] => -1
       | _ :: s' => Index_from (i + 1) s' sep
       end.

Definition Index (s sep : bytes) : Z := Index_from 0 s sep.

(** [bytes.Replace(s, old, new, -1)] for a non-empty [old]: occurrences
    are taken left to right and do not overlap. [skip] counts the bytes
    of the occurrence just replaced that are still to be dropped. *)
Fixpoint Replace_skip (skip : nat) (s old new : bytes) : bytes :=
  match s with
  | [] => []
  | c :: s' =>
      match skip with
      | S k => Replace_skip k s' old new
      | O => if HasPrefix s old
             then new ++ Replace_skip (length old - 1) s' old new
             else c :: Replace_skip O s' old new
      end
  end.

Definition ReplaceAll (s old new : bytes) : bytes := Replace_skip O s old new.

(** [dst := make([]byte, n); copy(dst, src)]: [n] bytes, those of [src]
    first, zero bytes after them if [src] is shorter. *)
Definition make_copy (n : Z) (src : bytes) : bytes :=
  let k := Z.to_nat n in
  take k src ++ replicate (k - length src)%nat Ascii.zero.

End Bytes.

Import Bytes.

(** [strings.HasPrefix(s, p)]. *)
Definition strings_HasPrefix (s p : string) : bool :=
  HasPrefix (of_string s) (of_string p).

(** ** argvars.go *)

(** The vocabulary of argument variables, in the order of the source. *)
Definition ArgVars : list string :=
  [ "{FilePath}"; "{FileName}"; "{FileExt}"; "{FileExtLC}"; "{FileNameNoExt}";
    "{FileDir}"; "{FileDirPath}"; "{FileDirProjRel}"; "{ProjectDir}";
    "{ProjectPath}"; "{CurLine}"; "{CurCol}"; "{SelStartLine}"; "{SelStartCol}";
    "{SelEndLine}"; "{SelEndCol}"; "{CurSel}"; "{CurLineText}"; "{CurWord}";
    "{PromptFilePath}"; "{PromptFileName}"; "{PromptFileDir}";
    "{PromptFileDirPath}"; "{PromptFileDirProjRel}"; "{PromptString1}";
    "{PromptString2}" ].

(** The package variable [ArgVarVals]: [None] is the nil map. *)
Abbreviation ValMap := (option (gmap string string)).

(** [val, ok := m[k]] on a map that may be nil. *)
Definition map_get (m : ValMap) (k : string) : option string :=
  match m with
  | None => None
  | Some g => g !! k
  end.

(** A token as it is written in a template: the name between braces. *)
Definition token (n : string) : string := "{" +:+ n +:+ "}".

(** *** BindArgVars *)

Module Bind.

(** The variables of the scanning loop. *)
Record scan := Scan { bs : bytes; sz : Z; ci : Z; gotquote : bool }.

(** How one round of the loop body ends: [break], or back to the loop
    test (by [continue] or by reaching the end of the body). *)
Inductive ctl := Break (s : scan) | Next (s : scan).

Definition lb : ascii := "{"%char.
Definition rb : ascii := "}"%char.
Definition lbrace : bytes := of_string "{".
Definition rbrace : bytes := of_string "}".
Definition backslash : ascii := "\"%char.

(** One round of the body of [for ci < sz { ... }]. *)
Definition body (vals : ValMap) (s : scan) : ctl :=
  let sb := Index (slice_from (bs s) (ci s)) lbrace in
  if sb <? 0 then Break s
  else
    let ci1 := ci s + sb in
    if (ci1 - 1 >=? 0) && bool_decide (at_ (bs s) (ci1 - 1) = Some backslash)
    then Next (Scan (bs s) (sz s) (ci1 + 1) true)
    else
      let eb := Index (slice_from (bs s) (ci1 + 1)) rbrace in
      if eb <? 0 then Break (Scan (bs s) (sz s) ci1 (gotquote s))
      else
        let eb1 := eb + (ci1 + 1) in
        let vnm := to_string (slice (bs s) ci1 (eb1 + 1)) in
        if strings_HasPrefix vnm "{Prompt"
        then Next (Scan (bs s) (sz s) ci1 (gotquote s))
        else
          match map_get vals vnm with
          | Some val =>
              let end_ := make_copy (sz s - (eb1 + 1)) (slice_from (bs s) (eb1 + 1)) in
              let bs1 := slice_to (bs s) ci1 ++ of_string val in
              let ci2 := len bs1 in
              let bs2 := bs1 ++ end_ in
              Next (Scan bs2 (len bs2) ci2 (gotquote s))
          | None => Next (Scan (bs s) (len (bs s)) ci1 (gotquote s))
          end.

(** The loop, for at most [fuel] rounds. *)
Fixpoint loop (fuel : nat) (vals : ValMap) (s : scan) : option scan :=
  match fuel with
  | O => None
  | S n =>
      if ci s <? sz s then
        match body vals s with
        | Break s' => Some s'
        | Next s' => loop n vals s'
        end
      else Some s
  end.

(** The separator pass of the end. [windows] is the answer of
    [oswin.TheApp.Platform() == oswin.Windows]. *)
Definition platform_seps (windows : bool) (b : bytes) : bytes :=
  if windows then ReplaceAll b (of_string "}/{") (of_string "}\{") else b.

(** What follows the loop. *)
Definition finish (windows : bool) (s : scan) : string :=
  let b1 := if gotquote s
            then ReplaceAll (bs s) (of_string "\{") (of_string "{")
            else bs s in
  to_string (platform_seps windows b1).

Definition start (arg : string) : scan :=
  Scan (of_string arg) (Z.of_nat (String.length arg)) 0 false.

End Bind.

(** [BindArgVars(arg)] reading the package variable [ArgVarVals = vals]. *)
Definition BindArgVars (fuel : nat) (windows : bool) (vals : ValMap)
    (arg : string) : option string :=
  Bind.finish windows <$> Bind.loop fuel vals (Bind.start arg).

(** [BindArgVars] returns [r]: the loop ends after some number of rounds. *)
Definition BindArgVars_returns (windows : bool) (vals : ValMap)
    (arg r : string) : Prop :=
  ∃ fuel, BindArgVars fuel windows vals arg = Some r.

(** [BindArgVars] never returns: the loop outlasts every bound. *)
Definition BindArgVars_diverges (windows : bool) (vals : ValMap)
    (arg : string) : Prop :=
  ∀ fuel, BindArgVars fuel windows vals arg = None.

(** *** SetArgVarVals *)

(** What the code reads of a [giv.TextView]: the file name of its buffer
    ([None] when [tv.Buf] is nil), the cursor and the selected region. *)
Record TextPos := { Ln : Z; Ch : Z }.
Record TextRegion := { Start : TextPos; End_ : TextPos }.
Record TextView := {
  Buf : option string;
  CursorPos : TextPos;
  SelectReg : TextRegion }.

(** The functions of Go's [path/filepath] and [strings] packages that
    [SetArgVarVals] calls. They belong to the Go library, not to the
    program, and nothing below depends on what they compute. [filepath.Rel]
    also answers an error, which the caller drops. *)
Class PathLib := {
  filepath_Clean : string → string;
  filepath_Split : string → string * string;
  filepath_Rel : string → string → string;
  filepath_Ext : string → string;
  strings_ToLower : string → string;
  strings_TrimSuffix : string → string → string }.

(** [fmt.Sprintf("%v", n)] for an [int]. *)
Definition Sprintf_v (n : Z) : string := pretty n.

(** [SetArgVarVals(avp, fpath, projpath, tv)]; the result is the map that
    [*avp] holds afterwards. *)
Definition SetArgVarVals `{PathLib} (avp : ValMap) (fpath projpath : string)
    (tv : option TextView) : ValMap :=
  let av := match avp with
            | None => ∅             (* make(map[string]string, len(ArgVars)) *)
            | Some m => m
            end in
  let fpath := filepath_Clean fpath in
  let projpath := filepath_Clean projpath in
  let dirpath := (filepath_Split fpath).1 in
  let fnm := (filepath_Split fpath).2 in
  let dirpath := filepath_Clean dirpath in
  let dir := (filepath_Split dirpath).2 in
  let dirrel := filepath_Rel projpath dirpath in
  let projdir := (filepath_Split projpath).2 in
  let ext := filepath_Ext fnm in
  let extlc := strings_ToLower ext in
  let fnmnoext := strings_TrimSuffix fnm ext in
  let av := <["{FilePath}" := fpath]> av in
  let av := <["{FileName}" := fnm]> av in
  let av := <["{FileExt}" := ext]> av in
  let av := <["{FileExtLC}" := extlc]> av in
  let av := <["{FileNameNoExt}" := fnmnoext]> av in
  let av := <["{FileDir}" := dir]> av in
  let av := <["{FileDirPath}" := dirpath]> av in
  let av := <["{FileDirProjRel}" := dirrel]> av in
  let av := <["{ProjectDir}" := projdir]> av in
  let av := <["{ProjectPath}" := projpath]> av in
  match tv with
  | Some tv =>
      let av := <["{CurLine}" := Sprintf_v (Ln (CursorPos tv))]> av in
      let av := <["{CurCol}" := Sprintf_v (Ch (CursorPos tv))]> av in
      let av := <["{SelStartLine}" := Sprintf_v (Ln (Start (SelectReg tv)))]> av in
      let av := <["{SelStartCol}" := Sprintf_v (Ch (Start (SelectReg tv)))]> av in
      let av := <["{SelEndLine}" := Sprintf_v (Ln (End_ (SelectReg tv)))]> av in
      let av := <["{SelEndCol}" := Sprintf_v (Ch (Start (SelectReg tv)))]> av in
      let av := <["{CurSel}" := ""]> av in
      let av := <["{CurLineText}" := ""]> av in
      let av := <["{CurWord}" := ""]> av in
      Some av
  | None =>
      let av := <["{CurLine}" := ""]> av in
      let av := <["{CurCol}" := ""]> av in
      let av := <["{SelStartLine}" := ""]> av in
      let av := <["{SelStartCol}" := ""]> av in
      let av := <["{SelEndLine}" := ""]> av in
      let av := <["{SelEndCol}" := ""]> av in
      let av := <["{CurSel}" := ""]> av in
      let av := <["{CurLineText}" := ""]> av in
      let av := <["{CurWord}" := ""]> av in
      Some av
  end.

(** The tokens that [SetArgVarVals] assigns: those of the file and the
    project, then those of the editor. The other tokens of [ArgVars] are the
    interactive ones, whose names start with [Prompt]. *)
Definition FileVars : list string :=
  [ "{FilePath}"; "{FileName}"; "{FileExt}"; "{FileExtLC}"; "{FileNameNoExt}";
    "{FileDir}"; "{FileDirPath}"; "{FileDirProjRel}"; "{ProjectDir}";
    "{ProjectPath}" ].

Definition EditorVars : list string :=
  [ "{CurLine}"; "{CurCol}"; "{SelStartLine}"; "{SelStartCol}";
    "{SelEndLine}"; "{SelEndCol}"; "{CurSel}"; "{CurLineText}"; "{CurWord}" ].

Definition PromptVars : list string :=
  filter (λ k, strings_HasPrefix k "{Prompt" = true) ArgVars.

(** [giv.TextView.HasSelection]: the region is not empty. *)
Definition HasSelection (tv : TextView) : bool :=
  let s := Start (SelectReg tv) in
  let e := End_ (SelectReg tv) in
  (Ln s <? Ln e) || ((Ln s =? Ln e) && (Ch s <? Ch e)).

(** An instance of [PathLib] to run the model on Unix paths that are
    already clean: [Clean] then has nothing to do but to drop the separator
    that [Split] leaves at the end of a directory, and [Rel] is only right
    for a target below the base. *)
Module UnixPaths.

Definition sep : ascii := "/"%char.

Fixpoint Split (s : bytes) : bytes * bytes :=
  match s with
  | [] => ([], [])
  | c :: s' =>
      let '(d, f) := Split s' in
      match d with
      | [] => if Ascii.eqb c sep then ([c], f) else ([], c :: f)
      | _ => (c :: d, f)
      end
  end.

Fixpoint Ext (s : bytes) : bytes :=
  match s with
  | [] => []
  | c :: s' =>
      match Ext s' with
      | [] => if Ascii.eqb c "."%char && bool_decide (sep ∉ s') then s else []
      | e => e
      end
  end.

Definition lower (c : ascii) : ascii :=
  let n := nat_of_ascii c in
  if ((65 <=? n) && (n <=? 90))%nat then ascii_of_nat (n + 32) else c.

Definition TrimSuffix (s suf : bytes) : bytes :=
  if bool_decide (drop (length s - length suf) s = suf)
  then take (length s - length suf) s else s.

Definition Rel (base targ : bytes) : bytes :=
  if bool_decide (targ = base) then of_string "."
  else if HasPrefix targ (base ++ [sep])
       then drop (S (length base)) targ else targ.

Definition Clean (s : bytes) : bytes :=
  match s with
  | [] => of_string "."
  | [_] => s
  | _ => if bool_decide (last s = Some sep) then removelast s else s
  end.

Definition on_strings (f : bytes → bytes) (s : string) : string :=
  to_string (f (of_string s)).

#[export] Instance unix_paths : PathLib := {|
  filepath_Clean := on_strings Clean;
  filepath_Split s :=
    (to_string (Split (of_string s)).1, to_string (Split (of_string s)).2);
  filepath_Rel base targ := to_string (Rel (of_string base) (of_string targ));
  filepath_Ext := on_strings Ext;
  strings_ToLower := on_strings (map lower);
  strings_TrimSuffix s suf :=
    to_string (TrimSuffix (of_string s) (of_string suf)) |}.

End UnixPaths.

(** ** gide/gide.go *)

(** *** State *)

(** A [*giv.TextBuf] is an address in a heap of text buffers: two pointers
    are the same buffer exactly when the addresses are equal. *)
Definition loc := positive.

(** What the code reads and writes of a [giv.TextBuf]. The zero value
    [giv.TextBuf{}] has no name, no line and [Autosave] unset. *)
Record TextBuf := { Nm : string; Lines : list string; Autosave : bool }.

Definition TextBuf_zero : TextBuf := {| Nm := ""; Lines := []; Autosave := false |}.

(** [buf.InitName(buf, name)]. *)
Definition TextBuf_InitName (name : string) (b : TextBuf) : TextBuf :=
  {| Nm := name; Lines := Lines b; Autosave := Autosave b |}.

Definition TextBuf_set_Autosave (a : bool) (b : TextBuf) : TextBuf :=
  {| Nm := Nm b; Lines := Lines b; Autosave := a |}.

(** Modelled from the spec: [giv.TextBuf.New(nlines)] belongs to the GUI
    library. It "truncates [the buffer] in place": the text that was there
    is gone and [nlines] blank lines stand in its place. *)
Definition TextBuf_New (nlines : nat) (b : TextBuf) : TextBuf :=
  {| Nm := Nm b; Lines := replicate nlines ""; Autosave := Autosave b |}.

(** An open file node: its path, its language and whether its buffer has
    unsaved changes. *)
Record OpenNode := { FPath : string; Sup : string; IsChanged : bool }.

Record ChangeRec := { Date : Z; Author : string; Email : string; Message : string }.

(** The preferences of the project that the code below uses. *)
Record ProjPrefs := {
  ProjFilename : string;
  BuildCmds : list string;
  RunCmds : list string;
  VersCtrl : string;
  ChangeLog : list ChangeRec }.

(** What the program does that is seen from outside, in order. *)
Inductive Event :=
  | PromptDialog (title : string)
  | ChoiceDialog (title : string) (opts : list string)
  | StringPromptDialog (title : string)
  | BufSave (fpath : string)
  | BufRevert (fpath : string)
  | SelectTab (label : string)
  | CmdRun (name : string) (buf : loc)
  | Status (msg : string)
  | ProjSave (filename : string)
  | Call (method : string).

(** The fields of [Gide] that the code below uses. A main tab is its label
    and the buffer that its text view shows. *)
Record Gide := {
  ProjRoot : string;
  ActiveLang : string;
  OpenNodes : list OpenNode;
  ActiveTextView : option TextView;
  MainTabs : list (string * option loc);
  CmdBufs : option (gmap string loc);
  KeySeq1 : string;
  Prefs : ProjPrefs }.

(** The [Gide] object with what lies around it: the package variables
    [ArgVarVals] and [CmdNoUserPrompt], the text buffers, and the events so
    far. *)
Record World := {
  ge : Gide;
  ArgVarVals : ValMap;
  CmdNoUserPrompt : bool;
  heap : gmap loc TextBuf;
  log : list Event }.

Definition upd_ChangeLog (f : list ChangeRec → list ChangeRec) (p : ProjPrefs) : ProjPrefs :=
  {| ProjFilename := ProjFilename p; BuildCmds := BuildCmds p; RunCmds := RunCmds p;
     VersCtrl := VersCtrl p; ChangeLog := f (ChangeLog p) |}.

Definition upd_ProjFilename (f : string → string) (p : ProjPrefs) : ProjPrefs :=
  {| ProjFilename := f (ProjFilename p); BuildCmds := BuildCmds p; RunCmds := RunCmds p;
     VersCtrl := VersCtrl p; ChangeLog := ChangeLog p |}.

Definition upd_OpenNodes (f : list OpenNode → list OpenNode) (g : Gide) : Gide :=
  {| ProjRoot := ProjRoot g; ActiveLang := ActiveLang g; OpenNodes := f (OpenNodes g);
     ActiveTextView := ActiveTextView g; MainTabs := MainTabs g; CmdBufs := CmdBufs g;
     KeySeq1 := KeySeq1 g; Prefs := Prefs g |}.

Definition upd_MainTabs (f : list (string * option loc) → list (string * option loc))
    (g : Gide) : Gide :=
  {| ProjRoot := ProjRoot g; ActiveLang := ActiveLang g; OpenNodes := OpenNodes g;
     ActiveTextView := ActiveTextView g; MainTabs := f (MainTabs g); CmdBufs := CmdBufs g;
     KeySeq1 := KeySeq1 g; Prefs := Prefs g |}.

Definition upd_CmdBufs (f : option (gmap string loc) → option (gmap string loc))
    (g : Gide) : Gide :=
  {| ProjRoot := ProjRoot g; ActiveLang := ActiveLang g; OpenNodes := OpenNodes g;
     ActiveTextView := ActiveTextView g; MainTabs := MainTabs g; CmdBufs := f (CmdBufs g);
     KeySeq1 := KeySeq1 g; Prefs := Prefs g |}.

Definition upd_KeySeq1 (f : string → string) (g : Gide) : Gide :=
  {| ProjRoot := ProjRoot g; ActiveLang := ActiveLang g; OpenNodes := OpenNodes g;
     ActiveTextView := ActiveTextView g; MainTabs := MainTabs g; CmdBufs := CmdBufs g;
     KeySeq1 := f (KeySeq1 g); Prefs := Prefs g |}.

Definition upd_Prefs (f : ProjPrefs → ProjPrefs) (g : Gide) : Gide :=
  {| ProjRoot := ProjRoot g; ActiveLang := ActiveLang g; OpenNodes := OpenNodes g;
     ActiveTextView := ActiveTextView g; MainTabs := MainTabs g; CmdBufs := CmdBufs g;
     KeySeq1 := KeySeq1 g; Prefs := f (Prefs g) |}.

Definition upd_ge (f : Gide → Gide) (w : World) : World :=
  {| ge := f (ge w); ArgVarVals := ArgVarVals w; CmdNoUserPrompt := CmdNoUserPrompt w;
     heap := heap w; log := log w |}.

Definition upd_ArgVarVals (f : ValMap → ValMap) (w : World) : World :=
  {| ge := ge w; ArgVarVals := f (ArgVarVals w); CmdNoUserPrompt := CmdNoUserPrompt w;
     heap := heap w; log := log w |}.

Definition upd_CmdNoUserPrompt (f : bool → bool) (w : World) : World :=
  {| ge := ge w; ArgVarVals := ArgVarVals w; CmdNoUserPrompt := f (CmdNoUserPrompt w);
     heap := heap w; log := log w |}.

Definition upd_heap (f : gmap loc TextBuf → gmap loc TextBuf) (w : World) : World :=
  {| ge := ge w; ArgVarVals := ArgVarVals w; CmdNoUserPrompt := CmdNoUserPrompt w;
     heap := f (heap w); log := log w |}.

Definition upd_log (f : list Event → list Event) (w : World) : World :=
  {| ge := ge w; ArgVarVals := ArgVarVals w; CmdNoUserPrompt := CmdNoUserPrompt w;
     heap := heap w; log := f (log w) |}.

(** An event happens. *)
Definition emit (e : Event) (w : World) : World := upd_log (λ l, l ++ [e]) w.

(** *** Keys *)

(** The values of [KeyFuns] that [GideKeys] names; [KeyFunOther] stands for
    the values that its switch does not list. *)
Inductive KeyFuns :=
  | KeyFunNil | KeyFunNeeds2 | KeyFunNextPanel | KeyFunPrevPanel | KeyFunFileOpen
  | KeyFunBufSelect | KeyFunBufClone | KeyFunBufSave | KeyFunBufSaveAs
  | KeyFunBufClose | KeyFunExecCmd | KeyFunRegCopy | KeyFunRegPaste
  | KeyFunCommentOut | KeyFunIndent | KeyFunJump | KeyFunSetSplit
  | KeyFunBuildProj | KeyFunRunProj | KeyFunOther.

(** The values of [gi.KeyFuns] that [GideKeys] tells apart. *)
Inductive gi_KeyFuns := gi_KeyFunNil | gi_KeyFunFind | gi_KeyFunOther.

Global Instance KeyFuns_eq_dec : EqDecision KeyFuns.
Proof. solve_decision. Defined.

(** A [key.ChordEvent]: the chord and whether a handler has taken it. *)
Record ChordEvent := { Chord : string; IsProcessed : bool }.

Definition SetProcessed (kt : ChordEvent) : ChordEvent :=
  {| Chord := Chord kt; IsProcessed := true |}.

(** *** What the code takes from elsewhere *)

(** The command catalog, the language options and the key maps are kept in
    other files of the program, the clock and the user settings in the GUI
    library: they are parameters.
    - [AvailCmds]: the names of the commands of the catalog, in order;
    - [FilterCmdNames lang vcs]: [AvailCmds.FilterCmdNames(lang, vcs)];
    - [PostSaveCmds lang]: [AvailLangs[lang].PostSaveCmds], empty when the
      language has no entry;
    - [KeyFun] and [gi_KeyFun]: the two key maps;
    - [ProjFileExists]: whether [os.Stat] finds the project file. *)
Record Env := {
  AvailCmds : list string;
  FilterCmdNames : string → string → list string;
  PostSaveCmds : string → list string;
  KeyFun : string → string → KeyFuns;
  gi_KeyFun : string → gi_KeyFuns;
  time_Now : Z;
  User_Name : string;
  User_Email : string;
  ProjFileExists : bool }.

(** The user in front of the dialogs. A dialog runs its callback when the
    user answers; the model runs it at once, with the answer that the user
    gives after the events so far: the button of a choice dialog, and the
    text of a string prompt ([None]: the prompt is dismissed). *)
Record User := {
  choice : list Event → Z;
  prompt_answer : list Event → option string }.

(** *** Operations *)

(** [strings.Contains(s, substr)]. *)
Definition strings_Contains (s substr : string) : bool :=
  bool_decide (0 <= Index (of_string s) (of_string substr)).

(** The loop of [CommitNoChecks] over the command names: the name that
    [cmdnm] holds after it, having started empty. *)
Fixpoint CommitCmdName (cmds : list string) : string :=
  match cmds with
  | [] => ""
  | cm :: rest => if strings_Contains cm "Commit" then cm else CommitCmdName rest
  end.

Section Gide.

Context `{PathLib} (env : Env).

(** [ge.NChangedFiles()], that is [ge.OpenNodes.NChanged()]: the "number
    of opened files with unsaved changes". *)
Definition NChangedFiles (w : World) : Z :=
  Z.of_nat (length (filter (λ o, IsChanged o = true) (OpenNodes (ge w)))).

(** [ge.SetStatus(msg)]. *)
Definition SetStatus (msg : string) (w : World) : World := emit (Status msg) w.

(** [ge.SetArgVarVals()]. The call in [gide.go] hands the project
    preferences to [SetArgVarVals] where [argvars.go] expects the project
    path; the path of the preferences is the project root. *)
Definition Gide_SetArgVarVals (w : World) : World :=
  let tv := ActiveTextView (ge w) in
  let fname := match tv with
               | Some t => default "" (Buf t)
               | None => ""
               end in
  upd_ArgVarVals (λ av, SetArgVarVals av fname (ProjRoot (ge w)) tv) w.

(** [ArgVarVals[k] = v]; the map is not nil where the code does this. *)
Definition ArgVarVals_set (k v : string) (w : World) : World :=
  upd_ArgVarVals (λ av, Some (<[k := v]> (default ∅ av))) w.

(** [ge.FindOrMakeCmdBuf(cmdNm, clear)]. *)
Definition FindOrMakeCmdBuf (cmdNm : string) (clear : bool) (w : World)
    : World * loc * bool :=
  let w := match CmdBufs (ge w) with
           | None => upd_ge (upd_CmdBufs (λ _, Some ∅)) w
           | Some _ => w
           end in
  match default ∅ (CmdBufs (ge w)) !! cmdNm with
  | Some buf =>
      let w := if clear then upd_heap (alter (TextBuf_New 0) buf) w else w in
      (w, buf, false)
  | None =>
      let buf := fresh (dom (heap w)) in
      let w := upd_heap (<[buf := TextBuf_zero]>) w in
      let w := upd_heap (alter (TextBuf_InitName (cmdNm +:+ "-buf")) buf) w in
      let w := upd_ge (upd_CmdBufs (λ m, Some (<[cmdNm := buf]> (default ∅ m)))) w in
      let w := upd_heap (alter (TextBuf_set_Autosave false) buf) w in
      (w, buf, true)
  end.

(** [tv.TabByName(label)]: the index of the first tab with that label. *)
Definition TabByName (label : string) (tabs : list (string * option loc))
    : option nat :=
  fst <$> list_find (λ t, t.1 = label) tabs.

(** [ge.FindOrMakeMainTab(label, typ, sel)]: the index of the tab. *)
Definition FindOrMakeMainTab (label : string) (sel : bool) (w : World)
    : World * nat :=
  match TabByName label (MainTabs (ge w)) with
  | Some idx =>
      let w := if sel then emit (SelectTab label) w else w in
      (w, idx)
  | None =>
      let idx := length (MainTabs (ge w)) in
      let w := upd_ge (upd_MainTabs (λ tabs, tabs ++ [(label, None)])) w in
      let w := if sel then emit (SelectTab label) w else w in
      (w, idx)
  end.

(** [ge.FindOrMakeMainTabTextView(label, sel)]: the text view of a tab is
    the tab itself. *)
Definition FindOrMakeMainTabTextView (label : string) (sel : bool) (w : World)
    : World * nat :=
  FindOrMakeMainTab label sel w.

(** [ctv.SetBuf(buf)] on the text view of tab [idx]. *)
Definition SetBuf (idx : nat) (buf : loc) (w : World) : World :=
  upd_ge (upd_MainTabs (λ tabs,
    match tabs !! idx with
    | Some t => <[idx := (t.1, Some buf)]> tabs
    | None => tabs
    end)) w.

(** [ge.FindOrMakeCmdTab(cmdNm, sel, clearBuf)]. *)
Definition FindOrMakeCmdTab (cmdNm : string) (sel clearBuf : bool) (w : World)
    : World * loc * nat * bool :=
  let '(w, buf, nw) := FindOrMakeCmdBuf cmdNm clearBuf w in
  let '(w, idx) := FindOrMakeMainTabTextView cmdNm sel w in
  let w := SetBuf idx buf w in
  (w, buf, idx, nw).

(** Modelled from the spec: [AvailCmds.CmdByName(name, true)] is in the
    file of the command catalog. "[ByName(name)] -> Command, found --
    exact match", and an "unknown command name" is "reported to the
    user, execution aborted". The result is whether the name was found. *)
Definition CmdByName (cmdNm : string) (w : World) : World * bool :=
  if bool_decide (cmdNm ∈ AvailCmds env) then (w, true)
  else (emit (PromptDialog "Command not found") w, false).

(** [ge.ExecCmdName(cmdNm, sel, clearBuf)]; [cmd.Run(ge, cbuf)] is the
    event [CmdRun]. *)
Definition ExecCmdName (cmdNm : string) (sel clearBuf : bool) (w : World) : World :=
  let '(w, ok) := CmdByName cmdNm w in
  if negb ok then w
  else
    let w := Gide_SetArgVarVals w in
    let '(w, cbuf, _, _) := FindOrMakeCmdTab cmdNm sel clearBuf w in
    emit (CmdRun cmdNm cbuf) w.

(** [ge.ExecCmdNameFileNode(fn, cmdNm, sel, clearBuf)]. *)
Definition ExecCmdNameFileNode (fn : OpenNode) (cmdNm : string)
    (sel clearBuf : bool) (w : World) : World :=
  let '(w, ok) := CmdByName cmdNm w in
  if negb ok then w
  else
    let w := upd_ArgVarVals
               (λ av, SetArgVarVals av (FPath fn) (ProjRoot (ge w)) None) w in
    let '(w, cbuf, _, _) := FindOrMakeCmdTab cmdNm sel clearBuf w in
    emit (CmdRun cmdNm cbuf) w.

(** [ge.ExecCmds(cmdNms, sel, clearBuf)]. *)
Fixpoint ExecCmds (cmdNms : list string) (sel clearBuf : bool) (w : World) : World :=
  match cmdNms with
  | [] => w
  | cmdNm :: rest => ExecCmds rest sel clearBuf (ExecCmdName cmdNm sel clearBuf w)
  end.

(** [ge.ExecCmdsFileNode(fn, cmdNms, sel, clearBuf)]. *)
Fixpoint ExecCmdsFileNode (fn : OpenNode) (cmdNms : list string)
    (sel clearBuf : bool) (w : World) : World :=
  match cmdNms with
  | [] => w
  | cmdNm :: rest =>
      ExecCmdsFileNode fn rest sel clearBuf
        (ExecCmdNameFileNode fn cmdNm sel clearBuf w)
  end.

(** [ge.RunPostCmdsFileNode(fn)]. *)
Definition RunPostCmdsFileNode (fn : OpenNode) (w : World) : World * bool :=
  match PostSaveCmds env (Sup fn) with
  | [] => (w, false)
  | cmds =>
      let w := ExecCmdsFileNode fn cmds false true w in
      (emit (BufRevert (FPath fn)) w, true)
  end.

(** [ge.SaveAllOpenNodes()], from the node of index [i] on. *)
Fixpoint SaveAllOpenNodes_from (i : nat) (onds : list OpenNode) (w : World) : World :=
  match onds with
  | [] => w
  | ond :: rest =>
      let w :=
        if IsChanged ond then
          let saved := {| FPath := FPath ond; Sup := Sup ond; IsChanged := false |} in
          let w := upd_ge (upd_OpenNodes (λ l, <[i := saved]> l)) w in
          let w := emit (BufSave (FPath ond)) w in
          (RunPostCmdsFileNode saved w).1
        else w in
      SaveAllOpenNodes_from (S i) rest w
  end.

Definition SaveAllOpenNodes (w : World) : World :=
  SaveAllOpenNodes_from 0 (OpenNodes (ge w)) w.

(** [ge.SaveAllCheck(cancelOpt, fun)]; [fun_] is [None] for a nil [fun]. *)
Definition SaveAllCheck (u : User) (cancelOpt : bool)
    (fun_ : option (World → World)) (w : World) : World * bool :=
  let nch := NChangedFiles w in
  if nch =? 0 then
    (match fun_ with Some f => f w | None => w end, false)
  else
    let opts := if cancelOpt
                then ["Save All"; "Don't Save"; "Cancel Command"]
                else ["Save All"; "Don't Save"] in
    let w := emit (ChoiceDialog "There are Unsaved Files" opts) w in
    let sig := choice u (log w) in
    let w :=
      if negb (sig =? 2) then
        let w := if sig =? 0 then SaveAllOpenNodes w else w in
        match fun_ with Some f => f w | None => w end
      else w in
    (w, true).

(** [ge.SaveProjAs(filename, saveAllFiles)]; writing the project file is
    the event [ProjSave]. *)
Definition SaveProjAs (u : User) (filename : string) (saveAllFiles : bool)
    (w : World) : World * bool :=
  let w := upd_ge (upd_Prefs (upd_ProjFilename (λ _, filename))) w in
  let w := emit (ProjSave filename) w in
  if saveAllFiles then SaveAllCheck u false None w else (w, false).

(** [ge.SaveProjIfExists(saveAllFiles)]. *)
Definition SaveProjIfExists (u : User) (saveAllFiles : bool) (w : World)
    : World * bool :=
  if bool_decide (ProjFilename (Prefs (ge w)) = "") then (w, false)
  else if negb (ProjFileExists env) then (w, false)
  else ((SaveProjAs u (ProjFilename (Prefs (ge w))) saveAllFiles w).1, true).

(** [ge.CommitUpdtLog(cmdnm)]. *)
Definition CommitUpdtLog (u : User) (cmdnm : string) (w : World) : World :=
  let '(w, idx) := FindOrMakeMainTabTextView cmdnm false w in
  match MainTabs (ge w) !! idx with
  | Some (_, Some _) => (SaveProjIfExists u true w).1
  | _ => w
  end.

(** [ge.CommitNoChecks()]. *)
Definition CommitNoChecks (u : User) (w : World) : World :=
  let cmds := FilterCmdNames env (ActiveLang (ge w)) (VersCtrl (Prefs (ge w))) in
  let cmdnm := CommitCmdName cmds in
  if bool_decide (cmdnm = "") then
    emit (PromptDialog "No Commit command found") w
  else
    let w := Gide_SetArgVarVals w in
    let w := emit (StringPromptDialog "Commit Message") w in
    match prompt_answer u (log w) with
    | Some msg =>
        let w := ArgVarVals_set "{PromptString1}" msg w in
        let w := upd_CmdNoUserPrompt (λ _, true) w in
        let rec := {| Date := time_Now env; Author := User_Name env;
                      Email := User_Email env; Message := msg |} in
        let w := upd_ge (upd_Prefs (upd_ChangeLog (λ l, l ++ [rec]))) w in
        let w := ExecCmdName cmdnm true true w in
        CommitUpdtLog u cmdnm w
    | None => w
    end.

(** [ge.Build()]. *)
Definition Build (u : User) (w : World) : World :=
  if bool_decide (BuildCmds (Prefs (ge w)) = []) then
    emit (PromptDialog "No BuildCmds Set") w
  else
    (SaveAllCheck u true
       (Some (λ w', ExecCmds (BuildCmds (Prefs (ge w'))) true true w')) w).1.

(** [ge.Run()]. *)
Definition Run (w : World) : World :=
  if bool_decide (RunCmds (Prefs (ge w)) = []) then
    emit (PromptDialog "No RunCmds Set") w
  else ExecCmds (RunCmds (Prefs (ge w))) true true w.

(** [ge.Commit()]. *)
Definition Commit (u : User) (w : World) : World :=
  if bool_decide (VersCtrl (Prefs (ge w)) = "") then
    emit (PromptDialog "No VersCtrl Set") w
  else (SaveAllCheck u true (Some (CommitNoChecks u)) w).1.

(** The second switch of [GideKeys], on the function of the key. A
    method that opens a dialog or acts on the editor is the event [Call]. *)
Definition GideKeys_dispatch (u : User) (kf : KeyFuns) (kt : ChordEvent)
    (w : World) : World * ChordEvent :=
  match kf with
  | KeyFunNextPanel => (emit (Call "FocusNextPanel") w, SetProcessed kt)
  | KeyFunPrevPanel => (emit (Call "FocusPrevPanel") w, SetProcessed kt)
  | KeyFunFileOpen => (emit (Call "ViewFile") w, SetProcessed kt)
  | KeyFunBufSelect => (emit (Call "SelectOpenNode") w, SetProcessed kt)
  | KeyFunBufClone => (emit (Call "CloneActiveView") w, SetProcessed kt)
  | KeyFunBufSave => (emit (Call "SaveActiveView") w, SetProcessed kt)
  | KeyFunBufSaveAs => (emit (Call "SaveActiveViewAs") w, SetProcessed kt)
  | KeyFunBufClose => (emit (Call "CloseActiveView") w, SetProcessed kt)
  | KeyFunExecCmd => (emit (Call "ExecCmd") w, SetProcessed kt)
  | KeyFunRegCopy => (emit (Call "RegisterCopy") w, SetProcessed kt)
  | KeyFunRegPaste => (emit (Call "RegisterPaste") w, SetProcessed kt)
  | KeyFunCommentOut => (emit (Call "CommentOut") w, SetProcessed kt)
  | KeyFunIndent => (emit (Call "Indent") w, SetProcessed kt)
  | KeyFunJump =>
      (emit (Call "Indent") (emit (Call "JumpToLinePrompt") w), SetProcessed kt)
  | KeyFunSetSplit => (emit (Call "SplitsSetView") w, SetProcessed kt)
  | KeyFunBuildProj => (Build u w, SetProcessed kt)
  | KeyFunRunProj => (Run w, SetProcessed kt)
  | KeyFunNil | KeyFunNeeds2 | KeyFunOther => (w, kt)
  end.

(** The two switches that end [GideKeys]. *)
Definition GideKeys_switch (u : User) (gkf : gi_KeyFuns) (kf : KeyFuns)
    (kt : ChordEvent) (w : World) : World * ChordEvent :=
  let '(w, kt) := match gkf with
                  | gi_KeyFunFind => (emit (Call "Find") w, SetProcessed kt)
                  | _ => (w, kt)
                  end in
  if IsProcessed kt then (w, kt) else GideKeys_dispatch u kf kt w.

(** [ge.GideKeys(kt)]. *)
Definition GideKeys (u : User) (kt : ChordEvent) (w : World) : World * ChordEvent :=
  let kc := Chord kt in
  let gkf := gi_KeyFun env kc in
  if negb (bool_decide (KeySeq1 (ge w) = "")) then
    let kf := KeyFun env (KeySeq1 (ge w)) kc in
    let seqstr := KeySeq1 (ge w) +:+ " " +:+ kc in
    if bool_decide (kf = KeyFunNil) || bool_decide (kc = "Escape") then
      let w := SetStatus (seqstr +:+ " -- aborted") w in
      let kt := SetProcessed kt in
      let w := upd_ge (upd_KeySeq1 (λ _, "")) w in
      (w, kt)
    else
      let w := SetStatus seqstr w in
      let w := upd_ge (upd_KeySeq1 (λ _, "")) w in
      let gkf := gi_KeyFunNil in
      GideKeys_switch u gkf kf kt w
  else
    let kf := KeyFun env kc "" in
    if bool_decide (kf = KeyFunNeeds2) then
      let kt := SetProcessed kt in
      let w := upd_ge (upd_KeySeq1 (λ _, Chord kt)) w in
      let w := SetStatus (KeySeq1 (ge w)) w in
      (w, kt)
    else
      let gkf := if negb (bool_decide (kf = KeyFunNil)) then gi_KeyFunNil else gkf in
      GideKeys_switch u gkf kf kt w.

End Gide.

(** ** Sample inputs *)

Module Samples.

(** An editor on [main.go]: the cursor at line 5, column 3, and a
    selection from line 1, column 2 to line 3, column 9. *)
Definition tv_sel : TextView :=
  {| Buf := Some "/home/u/proj/cmd/main.go";
     CursorPos := {| Ln := 5; Ch := 3 |};
     SelectReg := {| Start := {| Ln := 1; Ch := 2 |};
                     End_ := {| Ln := 3; Ch := 9 |} |} |}.

(** The same editor with nothing selected: the region is the zero value. *)
Definition tv_nosel : TextView :=
  {| Buf := Some "/home/u/proj/cmd/main.go";
     CursorPos := {| Ln := 5; Ch := 3 |};
     SelectReg := {| Start := {| Ln := 0; Ch := 0 |};
                     End_ := {| Ln := 0; Ch := 0 |} |} |}.

(** A catalog of four commands, two of them for Git, and key maps with
    the sequence [Control+X Control+S] for saving and the single chord
    [Control+M] for building. *)
Definition env0 : Env :=
  {| AvailCmds := ["Build Go Proj"; "Run Proj"; "Add Git"; "Commit Git"];
     FilterCmdNames := λ lang vcs,
       if bool_decide (vcs = "Git") then ["Add Git"; "Commit Git"] else [];
     PostSaveCmds := λ lang, [];
     KeyFun := λ k1 k2,
       if bool_decide (k1 = "Control+X") then
         if bool_decide (k2 = "") then KeyFunNeeds2
         else if bool_decide (k2 = "Control+S") then KeyFunBufSave
         else KeyFunNil
       else if bool_decide (k1 = "Control+M" ∧ k2 = "") then KeyFunBuildProj
       else KeyFunNil;
     gi_KeyFun := λ k, gi_KeyFunNil;
     time_Now := 1540000000;
     User_Name := "u";
     User_Email := "u@example.org";
     ProjFileExists := false |}.

(** A project in Go under Git, with [main.go] open and edited but not
    saved, no command buffer yet and no chord pending. *)
Definition ge0 : Gide :=
  {| ProjRoot := "/home/u/proj";
     ActiveLang := "Go";
     OpenNodes := [ {| FPath := "/home/u/proj/cmd/main.go"; Sup := "Go";
                       IsChanged := true |} ];
     ActiveTextView := Some tv_sel;
     MainTabs := [];
     CmdBufs := None;
     KeySeq1 := "";
     Prefs := {| ProjFilename := "";
                 BuildCmds := ["Build Go Proj"];
                 RunCmds := ["Run Proj"];
                 VersCtrl := "Git";
                 ChangeLog := [] |} |}.

Definition w0 : World :=
  {| ge := ge0; ArgVarVals := None; CmdNoUserPrompt := false;
     heap := ∅; log := [] |}.

(** The same world after the chord [Control+X]. *)
Definition w_pending : World := upd_ge (upd_KeySeq1 (λ _, "Control+X")) w0.

(** The same project under a version control without commands. *)
Definition w_novcs : World :=
  upd_ge (upd_Prefs (λ p, {| ProjFilename := ProjFilename p;
                             BuildCmds := BuildCmds p; RunCmds := RunCmds p;
                             VersCtrl := "SVN"; ChangeLog := ChangeLog p |})) w0.

(** A user who cancels every choice and dismisses every prompt. *)
Definition u_cancel : User := {| choice := λ _, 2; prompt_answer := λ _, None |}.

(** A user who saves all and commits with a message. *)
Definition u_commit : User :=
  {| choice := λ _, 0; prompt_answer := λ _, Some "first commit" |}.

End Samples.

(** ** Relations between worlds *)

(** [w'] comes after [w]: the events of [w] are the first events of [w'],
    and the pending chord is the same. Every operation of the command
    engine takes a world to a later one in this sense; only [GideKeys]
    writes [KeySeq1]. *)
Definition World_le (w w' : World) : Prop :=
  KeySeq1 (ge w') = KeySeq1 (ge w) ∧ ∃ l, log w' = log w ++ l.

(** Every command buffer of the table is a buffer of the heap. *)
Definition CmdBufs_wf (w : World) : Prop :=
  ∀ nm buf, default ∅ (CmdBufs (ge w)) !! nm = Some buf → is_Some (heap w !! buf).

(** ** Templates *)

(** A template written as texts and tokens, [t1{n1}t2{n2}...last], and
    the same with each token replaced by the value that [vals] has for it
    (by nothing when it has none). *)
Fixpoint template (segs : list (string * string)) (last : string) : string :=
  match segs with
  | [] => last
  | (t, n) :: rest => t +:+ token n +:+ template rest last
  end.

Fixpoint expansion (vals : ValMap) (segs : list (string * string))
    (last : string) : string :=
  match segs with
  | [] => last
  | (t, n) :: rest =>
      t +:+ default "" (map_get vals (token n)) +:+ expansion vals rest last
  end.

(** Texts with a separator after each but the last. *)
Fixpoint joined (sep : string) (texts : list string) (last : string) : string :=
  match texts with
  | [] => last
  | t :: rest => t +:+ sep +:+ joined sep rest last
  end.

(** A text that the scan passes over: it has no opening brace and does
    not end with a backslash, which would quote the brace after it. *)
Definition plain (t : string) : Prop :=
  (Bind.lb ∉ of_string t) ∧ last (of_string t) ≠ Some Bind.backslash.

(** A token that the scan replaces: the name has no closing brace and does
    not start with [Prompt], and [vals] has a value for it. *)
Definition resolved (vals : ValMap) (n : string) : Prop :=
  (Bind.rb ∉ of_string n)
  ∧ strings_HasPrefix (token n) "{Prompt" = false
  ∧ is_Some (map_get vals (token n)).

(** What [BindArgVars] returns when its loop ends with the buffer [b] and
    no brace was quoted. *)
Definition platform_string (windows : bool) (b : string) : string :=
  to_string (Bind.platform_seps windows (of_string b)).

(** A text and the token after it that the scan gets past, leaving a value
    that does not end with a backslash either. *)
Definition expandable (vals : ValMap) (seg : string * string) : Prop :=
  plain seg.1 ∧ resolved vals seg.2
  ∧ last (of_string (default "" (map_get vals (token seg.2)))) ≠ Some Bind.backslash.

(** A last text at which the scan stops: it has no opening brace, or its
    first opening brace is never closed. *)
Definition stops (lst : string) : Prop :=
  (Bind.lb ∉ of_string lst)
  ∨ ∃ t rest, lst = t +:+ "{" +:+ rest ∧ plain t ∧ (Bind.rb ∉ of_string rest).

(** The state of the scan after [k] rounds of the loop of [BindArgVars],
    or after its last round when the loop ends before: the loop test, the
    body, and [break] are those of [Bind.loop]. *)
Fixpoint rounds (k : nat) (vals : ValMap) (s : Bind.scan) : Bind.scan :=
  match k with
  | O => s
  | S k =>
      if Bind.ci s <? Bind.sz s then
        match Bind.body vals s with
        | Bind.Break s' => s'
        | Bind.Next s' => rounds k vals s'
        end
      else s
  end.

(** ** What the command engine does and keeps *)

(** The commands that were run, in order: the names of the [CmdRun]
    events. *)
Definition runs (l : list Event) : list string :=
  omap (λ e, match e with CmdRun nm _ => Some nm | _ => None end) l.

(** The files that were saved, in order. *)
Definition saves (l : list Event) : list string :=
  omap (λ e, match e with BufSave f => Some f | _ => None end) l.

(** The command buffers by name; a nil table has none. *)
Definition table (w : World) : gmap string loc := default ∅ (CmdBufs (ge w)).

(** What no command chain writes: the project root, the language, the
    active text view, the preferences and the flag [CmdNoUserPrompt]. *)
Definition settings (w : World)
    : string * string * option TextView * ProjPrefs * bool :=
  (ProjRoot (ge w), ActiveLang (ge w), ActiveTextView (ge w), Prefs (ge w),
   CmdNoUserPrompt w).

(** [w'] has the settings of [w], and the values of the tokens that
    [SetArgVarVals] does not assign. *)
Definition Frames (w w' : World) : Prop :=
  settings w' = settings w
  ∧ ∀ k, k ∉ FileVars ++ EditorVars →
         map_get (ArgVarVals w') k = map_get (ArgVarVals w) k.

(** The invariant of the command tabs: a command buffer is a buffer of the
    heap, two commands have two buffers, no two tabs have the same label,
    and a tab that shows a buffer under the name of a command that has a
    buffer shows that buffer. *)
Definition Engine_inv (w : World) : Prop :=
  CmdBufs_wf w
  ∧ (∀ n1 n2 b, table w !! n1 = Some b → table w !! n2 = Some b → n1 = n2)
  ∧ NoDup (MainTabs (ge w)).*1
  ∧ (∀ i l b b', MainTabs (ge w) !! i = Some (l, Some b) →
                 table w !! l = Some b' → b = b').

(** [w'] is [w] grown: a command that has a buffer keeps it, no buffer is
    gone, and the tabs of [w] are the first tabs of [w'], under the same
    labels. *)
Definition Grows (w w' : World) : Prop :=
  table w ⊆ table w'
  ∧ dom (heap w) ⊆ dom (heap w')
  ∧ (MainTabs (ge w)).*1 `prefix_of` (MainTabs (ge w')).*1.

(** The tabs that [FindOrMakeMainTab] would leave for a label. *)
Definition tabs_with (label : string) (tabs : list (string * option loc))
    : list (string * option loc) :=
  tabs ++ match TabByName label tabs with
          | Some _ => []
          | None => [(label, None)]
          end.

(** An event that, if it is the run of a command, is a run on the buffer
    that the table of [w] has for the command. *)
Definition on_table (w : World) (e : Event) : Prop :=
  match e with
  | CmdRun nm b => table w !! nm = Some b
  | _ => True
  end.

(** A step of the engine from [w] to [w']: [w'] is [w] grown, the
    invariant is kept, and the commands run on the way ran on the buffers
    that the table has for them in the end. *)
Definition Step (w w' : World) : Prop :=
  Grows w w'
  ∧ (Engine_inv w → Engine_inv w')
  ∧ ∃ l, log w' = log w ++ l ∧ Forall (on_table w') l.

(** [w'] has the settings, the prompt values and the open files of [w]. *)
Definition Keeps (w w' : World) : Prop :=
  Frames w w' ∧ OpenNodes (ge w') = OpenNodes (ge w).

(** A file after [Save]. *)
Definition saved (o : OpenNode) : OpenNode :=
  {| FPath := FPath o; Sup := Sup o; IsChanged := false |}.

(** The commands of the catalog among [cmds]. *)
Definition in_catalog (env : Env) (cmds : list string) : list string :=
  filter (λ nm, nm ∈ AvailCmds env) cmds.

(** Goals that are decided by running their decision procedure. *)
Ltac by_decide := apply (bool_decide_unpack _); vm_compute; exact I.

(** ** Facts about byte slices *)

Section Bytes_facts.

Implicit Types (a b m p r s : bytes) (c : ascii) (i : Z).

Lemma of_string_app (x y : string) :
  of_string (x +:+ y) = of_string x ++ of_string y.
Proof. induction x as [|c x IH]; simpl; [done | by rewrite <- IH]. Qed.

Lemma to_of_string (x : string) : to_string (of_string x) = x.
Proof. apply String.string_of_list_ascii_of_string. Qed.

Lemma of_to_string b : of_string (to_string b) = b.
Proof. apply String.list_ascii_of_string_of_list_ascii. Qed.

Lemma length_of_string (x : string) :
  length (of_string x) = String.length x.
Proof. induction x as [|c x IH]; simpl; [done | by rewrite IH]. Qed.

Lemma len_app a b : len (a ++ b) = len a + len b.
Proof. unfold len. rewrite length_app. lia. Qed.

Lemma len_nonneg a : 0 <= len a.
Proof. unfold len. lia. Qed.

Lemma slice_from_0 a : slice_from a 0 = a.
Proof. done. Qed.

Lemma slice_from_app a b : slice_from (a ++ b) (len a) = b.
Proof. unfold slice_from, len. rewrite Nat2Z.id. by rewrite drop_app_length. Qed.

Lemma slice_from_app_cons a c b : slice_from (a ++ c :: b) (len a + 1) = b.
Proof.
  replace (a ++ c :: b) with ((a ++ [c]) ++ b) by by rewrite <- app_assoc.
  replace (len a + 1) with (len (a ++ [c])) by by rewrite len_app.
  apply slice_from_app.
Qed.

Lemma slice_to_app a b : slice_to (a ++ b) (len a) = a.
Proof. unfold slice_to, len. rewrite Nat2Z.id. by rewrite take_app_length. Qed.

Lemma slice_app a m b : slice (a ++ m ++ b) (len a) (len a + len m) = m.
Proof.
  unfold slice, len. rewrite Nat2Z.id, drop_app_length.
  replace (Z.to_nat _) with (length m) by lia.
  by rewrite take_app_length.
Qed.

Lemma at_before_app p r :
  p ≠ [] → at_ (p ++ r) (len p - 1) = last p.
Proof.
  intros Hp. unfold at_, len. rewrite last_lookup.
  replace (Z.to_nat _) with (pred (length p)) by lia.
  apply lookup_app_l. destruct p; [done | simpl; lia].
Qed.

Lemma make_copy_exact a : make_copy (len a) a = a.
Proof.
  unfold make_copy, len. rewrite Nat2Z.id, firstn_all, Nat.sub_diag.
  apply app_nil_r.
Qed.

Lemma HasPrefix_single_cons c x s :
  HasPrefix (x :: s) [c] = bool_decide (x = c).
Proof.
  simpl. destruct (Ascii.eqb_spec x c) as [->|Hne].
  - destruct s; by rewrite bool_decide_eq_true_2.
  - by rewrite bool_decide_eq_false_2.
Qed.

(** A byte that does not occur is not found. *)
Lemma Index_from_absent i s c : c ∉ s → Index_from i s [c] = -1.
Proof.
  revert i. induction s as [|x s IH]; intros i Hc; [done|].
  apply not_elem_of_cons in Hc as [Hx Hs].
  cbn [Index_from]. rewrite HasPrefix_single_cons.
  rewrite bool_decide_eq_false_2 by congruence. by apply IH.
Qed.

(** The first occurrence of a byte is the one that is found. *)
Lemma Index_from_first i p c r :
  c ∉ p → Index_from i (p ++ c :: r) [c] = i + len p.
Proof.
  revert i. induction p as [|x p IH]; intros i Hc.
  - cbn [app Index_from]. rewrite HasPrefix_single_cons.
    rewrite bool_decide_eq_true_2 by done. unfold len. simpl. lia.
  - apply not_elem_of_cons in Hc as [Hx Hp].
    cbn [app Index_from]. rewrite HasPrefix_single_cons.
    rewrite bool_decide_eq_false_2 by congruence.
    rewrite IH by done. unfold len. simpl length. lia.
Qed.

(** Where a byte is found, if it is found. *)
Lemma Index_from_range i s c :
  Index_from i s [c] = -1 ∨ i <= Index_from i s [c] < i + len s.
Proof.
  revert i. induction s as [|x s IH]; intros i; [by left|].
  cbn [Index_from]. rewrite HasPrefix_single_cons.
  unfold len. cbn [length]. case_bool_decide.
  - right. lia.
  - destruct (IH (i + 1)) as [->|Hr]; [by left|right]. unfold len in Hr. lia.
Qed.

Lemma Index_range s c : Index s [c] = -1 ∨ 0 <= Index s [c] < len s.
Proof. apply Index_from_range. Qed.

Lemma len_slice_from a i : 0 <= i <= len a → len (slice_from a i) = len a - i.
Proof. intros Hi. unfold len, slice_from in *. rewrite length_drop. lia. Qed.

Lemma slice_to_app_le a b i : 0 <= i <= len a → slice_to (a ++ b) i = slice_to a i.
Proof. intros Hi. unfold slice_to, len in *. apply take_app_le. lia. Qed.

Lemma slice_to_slice_to a i j : 0 <= i <= j → slice_to (slice_to a j) i = slice_to a i.
Proof.
  intros Hij. unfold slice_to. rewrite take_take. f_equal. lia.
Qed.

Lemma len_slice_to a j : 0 <= j <= len a → len (slice_to a j) = j.
Proof. intros Hj. unfold len, slice_to in *. rewrite length_take. lia. Qed.

Lemma Index_absent s c : c ∉ s → Index s [c] = -1.
Proof. apply Index_from_absent. Qed.

Lemma Index_first p c r : c ∉ p → Index (p ++ c :: r) [c] = len p.
Proof. intros. unfold Index. by rewrite Index_from_first. Qed.

End Bytes_facts.

(** ** Facts about the scanning loop *)

Section Bind_facts.

Import Bind.

(** More fuel does not change a result. *)
Lemma loop_more_fuel n m vals s r :
  loop n vals s = Some r → loop (n + m) vals s = Some r.
Proof.
  revert s. induction n as [|n IH]; intros s; [done|].
  cbn [loop Nat.add]. destruct (ci s <? sz s); [|done].
  destruct (body vals s); [done | apply IH].
Qed.

(** The result does not depend on the fuel. *)
Lemma loop_deterministic n m vals s r r' :
  loop n vals s = Some r → loop m vals s = Some r' → r = r'.
Proof.
  intros Hn Hm.
  apply (loop_more_fuel _ m) in Hn. apply (loop_more_fuel _ n) in Hm.
  rewrite Nat.add_comm in Hm. congruence.
Qed.

(** A round that gives back the state it started from, with the loop
    test still true, is repeated for ever. *)
Lemma loop_stuck vals s :
  ci s < sz s → body vals s = Next s → ∀ fuel, loop fuel vals s = None.
Proof.
  intros Hlt Hb fuel. induction fuel as [|n IH]; [done|].
  cbn [loop]. apply Z.ltb_lt in Hlt. by rewrite Hlt, Hb.
Qed.

(** The loop reads the buffer from [ci] on and writes it from [ci] on: a
    round never moves [ci] back, and the bytes before [ci] are the same
    after it. [sz] is the length of the buffer throughout. *)
Lemma body_keeps_prefix vals s s' :
  sz s = len (bs s) → 0 <= ci s < sz s →
  body vals s = Next s' ∨ body vals s = Break s' →
  sz s' = len (bs s') ∧ ci s <= ci s' <= sz s'
  ∧ slice_to (bs s') (ci s) = slice_to (bs s) (ci s).
Proof.
  intros Hsz Hci. unfold body.
  change lbrace with [lb]. change rbrace with [rb].
  destruct (Index_range (slice_from (bs s) (ci s)) lb) as [->|Hsb].
  { cbn. intros [[=]|[= <-]]. repeat split; lia. }
  rewrite len_slice_from in Hsb by lia.
  set (sb := Index (slice_from (bs s) (ci s)) [lb]) in *.
  replace (sb <? 0) with false by (symmetry; apply Z.ltb_ge; lia).
  destruct (_ && _).
  { intros [[= <-]|[=]]. cbn. repeat split; lia. }
  destruct (Index_range (slice_from (bs s) (ci s + sb + 1)) rb) as [->|Heb].
  { cbn. intros [[=]|[= <-]]. cbn. repeat split; lia. }
  rewrite len_slice_from in Heb by lia.
  set (eb := Index (slice_from (bs s) (ci s + sb + 1)) [rb]) in *.
  replace (eb <? 0) with false by (symmetry; apply Z.ltb_ge; lia).
  destruct (strings_HasPrefix _ _).
  { intros [[= <-]|[=]]. cbn. repeat split; lia. }
  destruct (map_get vals _) as [val|].
  - intros [[= <-]|[=]]. cbn [bs sz ci].
    pose proof (len_nonneg (of_string val)).
    pose proof (len_nonneg (make_copy (sz s - (eb + (ci s + sb + 1) + 1))
                              (slice_from (bs s) (eb + (ci s + sb + 1) + 1)))).
    assert (Hpre : len (slice_to (bs s) (ci s + sb)) = ci s + sb)
      by (apply len_slice_to; lia).
    rewrite !len_app, Hpre. repeat split; try lia.
    rewrite <- app_assoc, slice_to_app_le by lia.
    apply slice_to_slice_to. lia.
  - intros [[= <-]|[=]]. cbn. repeat split; lia.
Qed.

Lemma loop_keeps_prefix fuel vals s s' :
  sz s = len (bs s) → 0 <= ci s <= sz s →
  loop fuel vals s = Some s' →
  slice_to (bs s') (ci s) = slice_to (bs s) (ci s).
Proof.
  revert s. induction fuel as [|n IH]; intros s Hsz Hci; [done|].
  cbn [loop]. destruct (Z.ltb_spec (ci s) (sz s)) as [Hlt|]; [|by intros [= <-]].
  destruct (body vals s) as [s1|s1] eqn:Hb.
  - intros [= <-].
    by destruct (body_keeps_prefix vals s s1 Hsz) as (_ & _ & ?); [lia|by right|].
  - intros Hl.
    destruct (body_keeps_prefix vals s s1 Hsz) as (Hsz1 & Hci1 & Hp1);
      [lia|by left|].
    specialize (IH s1 Hsz1 ltac:(lia) Hl).
    rewrite <- Hp1.
    rewrite <- (slice_to_slice_to (bs s') (ci s) (ci s1)) by lia.
    rewrite IH. apply slice_to_slice_to. lia.
Qed.

End Bind_facts.

Section Bind_token.

Import Bind.

(** The round of the loop that meets a well-formed token: the scan is at
    [len p1], the bytes [p2] up to the token hold no opening brace, the
    byte before the token is not a backslash and the name [n] holds no
    closing brace. *)
Lemma body_at_token vals (p1 p2 n q : bytes) sz0 gq :
  lb ∉ p2 → last (p1 ++ p2) ≠ Some backslash → rb ∉ n →
  body vals (Scan (p1 ++ p2 ++ lb :: n ++ rb :: q) sz0 (len p1) gq) =
    let b := p1 ++ p2 ++ lb :: n ++ rb :: q in
    let key := to_string (lb :: n ++ [rb]) in
    if strings_HasPrefix key "{Prompt"
    then Next (Scan b sz0 (len (p1 ++ p2)) gq)
    else match map_get vals key with
         | Some val =>
             let end_ := make_copy (sz0 - (len n + (len (p1 ++ p2) + 1) + 1)) q in
             let bs1 := (p1 ++ p2) ++ of_string val in
             Next (Scan (bs1 ++ end_) (len (bs1 ++ end_)) (len bs1) gq)
         | None => Next (Scan b (len b) (len (p1 ++ p2)) gq)
         end.
Proof.
  intros Hp2 Hlast Hn. unfold body. cbn [bs sz ci gotquote].
  rewrite slice_from_app.
  change lbrace with [lb]. change rbrace with [rb].
  rewrite (Index_first p2 lb) by done.
  pose proof (len_nonneg p2) as Hp2nn.
  replace (len p2 <? 0) with false by (symmetry; apply Z.ltb_ge; lia).
  replace (len p1 + len p2) with (len (p1 ++ p2)) by apply len_app.
  rewrite (app_assoc p1 p2).
  set (p := p1 ++ p2) in *.
  assert ((len p - 1 >=? 0)
          && bool_decide (at_ (p ++ lb :: n ++ rb :: q) (len p - 1) = Some backslash)
          = false) as ->.
  { destruct (decide (p = [])) as [->|Hne]; [done|].
    rewrite at_before_app by done.
    rewrite bool_decide_eq_false_2 by done. apply andb_false_r. }
  rewrite slice_from_app_cons.
  rewrite (Index_first n rb) by done.
  pose proof (len_nonneg n) as Hnnn.
  replace (len n <? 0) with false by (symmetry; apply Z.ltb_ge; lia).
  assert (slice (p ++ lb :: n ++ rb :: q) (len p) (len n + (len p + 1) + 1)
          = lb :: n ++ [rb]) as ->.
  { replace (lb :: n ++ rb :: q) with ((lb :: n ++ [rb]) ++ q)
      by (simpl; by rewrite <- app_assoc).
    replace (len n + (len p + 1) + 1) with (len p + len (lb :: n ++ [rb])).
    - apply slice_app.
    - unfold len. simpl. rewrite length_app. simpl. lia. }
  assert (slice_from (p ++ lb :: n ++ rb :: q) (len n + (len p + 1) + 1) = q) as ->.
  { replace (p ++ lb :: n ++ rb :: q) with ((p ++ lb :: n ++ [rb]) ++ q)
      by (rewrite <- app_assoc; simpl; by rewrite <- app_assoc).
    replace (len n + (len p + 1) + 1) with (len (p ++ lb :: n ++ [rb])).
    - apply slice_from_app.
    - unfold len. rewrite length_app. simpl. rewrite length_app. simpl. lia. }
  rewrite slice_to_app.
  reflexivity.
Qed.

End Bind_token.

Section Bind_theorems.

Import Bind.

Lemma of_string_token n : of_string (token n) = lb :: of_string n ++ [rb].
Proof. unfold token. by rewrite !of_string_app. Qed.

Lemma of_string_template pre n post :
  of_string (pre +:+ token n +:+ post)
  = of_string pre ++ lb :: of_string n ++ rb :: of_string post.
Proof.
  rewrite !of_string_app, of_string_token. simpl.
  by rewrite <- app_assoc.
Qed.

Lemma start_eq arg : start arg = Scan (of_string arg) (len (of_string arg)) 0 false.
Proof. unfold start, len. by rewrite length_of_string. Qed.

Lemma BindArgVars_returns_functional windows vals arg r r' :
  BindArgVars_returns windows vals arg r →
  BindArgVars_returns windows vals arg r' → r = r'.
Proof.
  intros [n Hn] [m Hm]. unfold BindArgVars in *.
  destruct (loop n vals (start arg)) as [s|] eqn:En; [|done].
  destruct (loop m vals (start arg)) as [s'|] eqn:Em; [|done].
  rewrite (loop_deterministic _ _ _ _ _ _ En Em) in Hn.
  simpl in *. congruence.
Qed.

(** A token that is left alone -- its name starts with [Prompt], or it is
    no key of the value map -- stops the scan for good: every round finds
    the same opening brace again. *)
Lemma loop_unresolved_token vals (p n q : bytes) :
  lb ∉ p → last p ≠ Some backslash → rb ∉ n →
  strings_HasPrefix (to_string (lb :: n ++ [rb])) "{Prompt" = true
  ∨ map_get vals (to_string (lb :: n ++ [rb])) = None →
  ∀ fuel,
    loop fuel vals (Scan (p ++ lb :: n ++ rb :: q)
                         (len (p ++ lb :: n ++ rb :: q)) 0 false) = None.
Proof.
  intros Hp Hlast Hn Hkey fuel.
  set (b := p ++ lb :: n ++ rb :: q).
  assert (Hlen : len p < len b).
  { unfold b. rewrite len_app. unfold len at 3. simpl length. lia. }
  assert (Hround : ∀ p1 p2, p = p1 ++ p2 → lb ∉ p2 →
            body vals (Scan b (len b) (len p1) false)
            = Next (Scan b (len b) (len p) false)).
  { intros p1 p2 Hp12 Hp2.
    pose proof (body_at_token vals p1 p2 n q (len b) false Hp2) as Hb.
    rewrite <- Hp12, app_assoc, <- Hp12 in Hb. fold b in Hb.
    rewrite Hb by done. cbn zeta.
    destruct Hkey as [-> | Hnone]; [done|].
    destruct (strings_HasPrefix _ _); [done|]. by rewrite Hnone. }
  destruct fuel as [|fuel]; [done|].
  cbn [loop ci sz].
  pose proof (len_nonneg p).
  replace (0 <? len b) with true by (symmetry; apply Z.ltb_lt; lia).
  pose proof (Hround [] p eq_refl Hp) as Hfirst.
  change (len []) with 0 in Hfirst. rewrite Hfirst.
  apply loop_stuck; [done|].
  apply (Hround p []); [by rewrite app_nil_r | apply not_elem_of_nil].
Qed.

End Bind_theorems.

Section Bind_claims.

Import Bind.

(** C1. [BindArgVars("{PromptString1}")] does not return
    ["{PromptString1}"]: it does not return at all. The [{Prompt...}]
    branch of the loop is empty, so [ci] stays on the opening brace and
    every further round finds the same token again, whatever the value
    map holds -- also when it holds a value for [{PromptString1}]. *)
Theorem BindArgVars_PromptString1_never_returns (windows : bool) (vals : ValMap) :
  BindArgVars_diverges windows vals "{PromptString1}"
  ∧ ¬ BindArgVars_returns windows vals "{PromptString1}" "{PromptString1}".
Proof.
  assert (Hdiv : BindArgVars_diverges windows vals "{PromptString1}").
  { intros fuel. unfold BindArgVars.
    pose proof (loop_unresolved_token vals [] (of_string "PromptString1") []) as H.
    rewrite start_eq. change (of_string "{PromptString1}") with
      ([] ++ lb :: of_string "PromptString1" ++ rb :: []).
    rewrite H; [done | apply not_elem_of_nil | done | by_decide | by left]. }
  split; [done|]. intros [fuel Hf]. by rewrite Hdiv in Hf.
Qed.

(** C2. [BindArgVars] is not total. On a template whose first opening
    brace starts a well-formed token that is left alone -- the name starts
    with [Prompt], or [{name}] is no key of the value map -- the loop
    never ends, whatever precedes and follows the token. *)
Theorem BindArgVars_unresolved_token_diverges
    (windows : bool) (vals : ValMap) (pre n post : string) :
  lb ∉ of_string pre →
  last (of_string pre) ≠ Some backslash →
  rb ∉ of_string n →
  strings_HasPrefix (token n) "{Prompt" = true ∨ map_get vals (token n) = None →
  BindArgVars_diverges windows vals (pre +:+ token n +:+ post).
Proof.
  intros Hpre Hlast Hn Hkey fuel. unfold BindArgVars.
  rewrite start_eq, of_string_template.
  rewrite loop_unresolved_token; try done.
  by rewrite <- of_string_token, to_of_string.
Qed.

Lemma BindArgVars_unresolved_token_diverges_witness :
  BindArgVars_diverges false (Some ∅) ("gofmt " +:+ token "Foo" +:+ " -w").
Proof.
  apply BindArgVars_unresolved_token_diverges.
  - by_decide.
  - by_decide.
  - by_decide.
  - right. reflexivity.
Defined.

(** C4, as stated, fails: the result of [BindArgVars("\{literal\}")] is
    not ["{literal}"]. *)
Lemma BindArgVars_escaped_literal_counterexample :
  ¬ BindArgVars_returns false None "\{literal\}" "{literal}".
Proof.
  intros H.
  assert (H' : BindArgVars_returns false None "\{literal\}" "{literal\}")
    by (by exists 2%nat).
  pose proof (BindArgVars_returns_functional _ _ _ _ _ H H'). done.
Qed.

(** C4, amended. For every value map [BindArgVars("\{literal\}")] returns
    ["{literal\}"]: the opening brace after a backslash is literal text
    and loses its backslash; the closing brace keeps the backslash before
    it, since only ["\{"] is replaced after the loop. *)
Theorem BindArgVars_escaped_literal (windows : bool) (vals : ValMap) :
  BindArgVars_returns windows vals "\{literal\}" "{literal\}".
Proof. exists 2%nat. by destruct windows. Qed.

End Bind_claims.

(** ** SetArgVarVals *)

Section SetArgVarVals_facts.

Context `{PathLib}.

(** The map after [SetArgVarVals] is never nil. *)
Lemma SetArgVarVals_not_nil avp fpath projpath tv :
  is_Some (SetArgVarVals avp fpath projpath tv).
Proof. unfold SetArgVarVals. destruct tv; eauto. Qed.

(** A key that is none of the nineteen assigned tokens keeps the binding
    it had, or stays absent. *)
Lemma SetArgVarVals_other avp fpath projpath tv k :
  k ∉ FileVars ++ EditorVars →
  map_get (SetArgVarVals avp fpath projpath tv) k = map_get avp k.
Proof.
  intros Hk.
  assert (Hne : Forall (λ k', k' ≠ k) (FileVars ++ EditorVars)).
  { apply Forall_forall. intros k' Hk' ->. done. }
  cbn in Hne. repeat (apply Forall_cons in Hne as [? Hne]).
  unfold SetArgVarVals.
  destruct tv; cbn [map_get]; rewrite !lookup_insert_ne by done;
    destruct avp; cbn [map_get]; done.
Qed.

(** Each of the nineteen assigned tokens is a key afterwards. *)
Lemma SetArgVarVals_assigned avp fpath projpath tv :
  Forall (λ k, is_Some (map_get (SetArgVarVals avp fpath projpath tv) k))
         (FileVars ++ EditorVars).
Proof.
  unfold SetArgVarVals.
  destruct tv; cbn [map_get app FileVars EditorVars];
    repeat (apply Forall_cons; split; [by simplify_map_eq|]);
    apply Forall_nil_2.
Qed.

(** Without an editor the nine editor tokens are bound to the empty
    string. *)
Lemma SetArgVarVals_no_editor avp fpath projpath :
  Forall (λ k, map_get (SetArgVarVals avp fpath projpath None) k = Some "")
         EditorVars.
Proof.
  unfold SetArgVarVals. cbn [map_get EditorVars].
  repeat (apply Forall_cons; split; [by simplify_map_eq|]).
  apply Forall_nil_2.
Qed.

End SetArgVarVals_facts.

Section SetArgVarVals_claims.

Import Samples UnixPaths.

(** C3, as stated, fails. Starting from the nil map, the map after
    [SetArgVarVals] lacks the interactive tokens of [ArgVars]; starting from
    a map that holds an answer for [{PromptString1}], that answer is still
    there afterwards. *)
Lemma SetArgVarVals_closed_vocabulary_counterexample :
  ¬ (∀ k, k ∈ ArgVars →
       is_Some (map_get (SetArgVarVals None "/home/u/proj/cmd/main.go"
                           "/home/u/proj" None) k))
  ∧ map_get (SetArgVarVals (Some {[ "{PromptString1}" := "first commit" ]})
               "/home/u/proj/cmd/main.go" "/home/u/proj" None)
      "{PromptString1}" = Some "first commit".
Proof.
  split; [|by vm_compute].
  intros Hall. specialize (Hall "{PromptString1}").
  destruct Hall as [v Hv]; [by_decide|].
  by vm_compute in Hv.
Qed.

(** C3, amended. [SetArgVarVals] updates the map in place: the nineteen
    tokens of the file, the project and the editor are keys afterwards,
    the editor tokens being bound to the empty string when there is no
    editor; every other key, the interactive tokens among them, has the
    binding it had before the call, or none if it had none. *)
Theorem SetArgVarVals_updates_in_place `{PathLib}
    (avp : ValMap) (fpath projpath : string) (tv : option TextView) :
  ArgVars = FileVars ++ EditorVars ++ PromptVars
  ∧ Forall (λ k, is_Some (map_get (SetArgVarVals avp fpath projpath tv) k))
           (FileVars ++ EditorVars)
  ∧ Forall (λ k, map_get (SetArgVarVals avp fpath projpath None) k = Some "")
           EditorVars
  ∧ ∀ k, k ∉ FileVars ++ EditorVars →
         map_get (SetArgVarVals avp fpath projpath tv) k = map_get avp k.
Proof.
  split; [by vm_compute|].
  split; [apply SetArgVarVals_assigned|].
  split; [apply SetArgVarVals_no_editor|].
  intros k. apply SetArgVarVals_other.
Qed.

(** C6. With an editor, [{SelStartLine}], [{SelStartCol}] and [{SelEndLine}]
    are the coordinates of the selected region, but [{SelEndCol}] is the
    column of its start, not of its end; and none of the four is taken
    from the cursor when nothing is selected. On the sample editor, whose
    selection ends at column 9, [{SelEndCol}] is ["2"]; on the editor with
    the cursor at line 5 and no selection, [{SelStartLine}] is ["0"]. *)
Theorem SetArgVarVals_SelEndCol_is_start_column `{PathLib}
    (avp : ValMap) (fpath projpath : string) (tv : TextView) :
  let av := SetArgVarVals avp fpath projpath (Some tv) in
  map_get av "{SelStartLine}" = Some (Sprintf_v (Ln (Start (SelectReg tv))))
  ∧ map_get av "{SelStartCol}" = Some (Sprintf_v (Ch (Start (SelectReg tv))))
  ∧ map_get av "{SelEndLine}" = Some (Sprintf_v (Ln (End_ (SelectReg tv))))
  ∧ map_get av "{SelEndCol}" = Some (Sprintf_v (Ch (Start (SelectReg tv))))
  ∧ map_get (SetArgVarVals avp fpath projpath (Some tv_sel)) "{SelEndCol}"
    = Some "2"
  ∧ HasSelection tv_nosel = false
  ∧ map_get (SetArgVarVals avp fpath projpath (Some tv_nosel)) "{SelStartLine}"
    = Some "0"
  ∧ map_get (SetArgVarVals avp fpath projpath (Some tv_nosel)) "{CurLine}"
    = Some "5".
Proof.
  unfold SetArgVarVals. cbn [map_get].
  repeat split; by simplify_map_eq.
Qed.

End SetArgVarVals_claims.

(** ** The command engine only adds events and leaves the chord alone *)

Section World_le_facts.

Context `{PathLib} (env : Env).

Lemma World_le_refl w : World_le w w.
Proof. split; [done|]. exists []. by rewrite app_nil_r. Qed.

Lemma World_le_trans w1 w2 w3 : World_le w1 w2 → World_le w2 w3 → World_le w1 w3.
Proof.
  intros [Hk1 [l1 Hl1]] [Hk2 [l2 Hl2]]. split; [congruence|].
  exists (l1 ++ l2). by rewrite Hl2, Hl1, app_assoc.
Qed.

(** An update that touches neither the chord nor the events. *)
Lemma World_le_same w0 w w' :
  KeySeq1 (ge w') = KeySeq1 (ge w) → log w' = log w →
  World_le w0 w → World_le w0 w'.
Proof.
  intros Hk Hl Hle. eapply World_le_trans; [exact Hle|].
  split; [done|]. exists []. by rewrite app_nil_r.
Qed.

Lemma emit_le e w0 w : World_le w0 w → World_le w0 (emit e w).
Proof.
  intros Hle. eapply World_le_trans; [exact Hle|].
  split; [done|]. by exists [e].
Qed.

Lemma Gide_SetArgVarVals_le w0 w :
  World_le w0 w → World_le w0 (Gide_SetArgVarVals w).
Proof. by apply World_le_same. Qed.

Lemma FindOrMakeCmdBuf_le cmdNm clear w0 w :
  World_le w0 w → World_le w0 (FindOrMakeCmdBuf cmdNm clear w).1.1.
Proof.
  apply World_le_same; unfold FindOrMakeCmdBuf;
    destruct (CmdBufs (ge w)); cbn; repeat case_match; done.
Qed.

Lemma FindOrMakeMainTab_le label sel w0 w :
  World_le w0 w → World_le w0 (FindOrMakeMainTab label sel w).1.
Proof.
  intros Hle. unfold FindOrMakeMainTab.
  destruct (TabByName _ _), sel; cbn [fst];
    try apply emit_le; try done; by eapply World_le_same; [..|exact Hle].
Qed.

Lemma SetBuf_le idx buf w0 w : World_le w0 w → World_le w0 (SetBuf idx buf w).
Proof. by apply World_le_same. Qed.

Lemma FindOrMakeCmdTab_le cmdNm sel clearBuf w0 w :
  World_le w0 w → World_le w0 (FindOrMakeCmdTab cmdNm sel clearBuf w).1.1.1.
Proof.
  intros Hle. unfold FindOrMakeCmdTab.
  pose proof (FindOrMakeCmdBuf_le cmdNm clearBuf w0 w Hle) as H1.
  destruct (FindOrMakeCmdBuf cmdNm clearBuf w) as [[w1 buf] nw]. cbn [fst] in H1.
  unfold FindOrMakeMainTabTextView.
  pose proof (FindOrMakeMainTab_le cmdNm sel w0 w1 H1) as H2.
  destruct (FindOrMakeMainTab cmdNm sel w1) as [w2 idx]. cbn [fst] in *.
  by apply SetBuf_le.
Qed.

Lemma CmdByName_le cmdNm w0 w :
  World_le w0 w → World_le w0 (CmdByName env cmdNm w).1.
Proof.
  intros Hle. unfold CmdByName. case_bool_decide; cbn [fst]; [done|].
  by apply emit_le.
Qed.

Lemma ExecCmdName_le cmdNm sel clearBuf w0 w :
  World_le w0 w → World_le w0 (ExecCmdName env cmdNm sel clearBuf w).
Proof.
  intros Hle. unfold ExecCmdName.
  pose proof (CmdByName_le cmdNm w0 w Hle) as H1.
  destruct (CmdByName env cmdNm w) as [w1 ok]. cbn [fst] in H1.
  destruct ok; cbn [negb]; [|done].
  pose proof (FindOrMakeCmdTab_le cmdNm sel clearBuf w0 _
                (Gide_SetArgVarVals_le w0 w1 H1)) as H2.
  destruct (FindOrMakeCmdTab _ _ _ _) as [[[w2 cbuf] idx] nw]. cbn [fst] in H2.
  by apply emit_le.
Qed.

Lemma ExecCmdNameFileNode_le fn cmdNm sel clearBuf w0 w :
  World_le w0 w → World_le w0 (ExecCmdNameFileNode env fn cmdNm sel clearBuf w).
Proof.
  intros Hle. unfold ExecCmdNameFileNode.
  pose proof (CmdByName_le cmdNm w0 w Hle) as H1.
  destruct (CmdByName env cmdNm w) as [w1 ok]. cbn [fst] in H1.
  destruct ok; cbn [negb]; [|done].
  match goal with |- context [FindOrMakeCmdTab _ _ _ ?w'] =>
    assert (World_le w0 w') as H1' by (by eapply World_le_same; [..|exact H1]);
    pose proof (FindOrMakeCmdTab_le cmdNm sel clearBuf w0 w' H1') as H2;
    destruct (FindOrMakeCmdTab cmdNm sel clearBuf w') as [[[w2 cbuf] idx] nw]
  end.
  cbn [fst] in H2. by apply emit_le.
Qed.

Lemma ExecCmds_le cmdNms sel clearBuf w0 w :
  World_le w0 w → World_le w0 (ExecCmds env cmdNms sel clearBuf w).
Proof.
  revert w. induction cmdNms as [|c rest IH]; intros w Hle; [done|].
  cbn [ExecCmds]. by apply IH, ExecCmdName_le.
Qed.

Lemma ExecCmdsFileNode_le fn cmdNms sel clearBuf w0 w :
  World_le w0 w → World_le w0 (ExecCmdsFileNode env fn cmdNms sel clearBuf w).
Proof.
  revert w. induction cmdNms as [|c rest IH]; intros w Hle; [done|].
  cbn [ExecCmdsFileNode]. by apply IH, ExecCmdNameFileNode_le.
Qed.

Lemma RunPostCmdsFileNode_le fn w0 w :
  World_le w0 w → World_le w0 (RunPostCmdsFileNode env fn w).1.
Proof.
  intros Hle. unfold RunPostCmdsFileNode.
  destruct (PostSaveCmds env (Sup fn)); cbn [fst]; [done|].
  by apply emit_le, ExecCmdsFileNode_le.
Qed.

Lemma SaveAllOpenNodes_from_le i onds w0 w :
  World_le w0 w → World_le w0 (SaveAllOpenNodes_from env i onds w).
Proof.
  revert i w. induction onds as [|ond rest IH]; intros i w Hle; [done|].
  cbn [SaveAllOpenNodes_from]. apply IH.
  destruct (IsChanged ond); [|done].
  apply RunPostCmdsFileNode_le, emit_le.
  by eapply World_le_same; [..|exact Hle].
Qed.

Lemma SaveAllOpenNodes_le w0 w :
  World_le w0 w → World_le w0 (SaveAllOpenNodes env w).
Proof. apply SaveAllOpenNodes_from_le. Qed.

Lemma SaveAllCheck_le u cancelOpt fun_ w0 w :
  (∀ f w1, fun_ = Some f → World_le w0 w1 → World_le w0 (f w1)) →
  World_le w0 w → World_le w0 (SaveAllCheck env u cancelOpt fun_ w).1.
Proof.
  intros Hf Hle. unfold SaveAllCheck.
  destruct (NChangedFiles w =? 0); cbn [fst].
  - destruct fun_ as [f|]; [by apply (Hf f)|done].
  - set (w1 := emit _ w).
    assert (World_le w0 w1) as H1 by by apply emit_le.
    destruct (negb (choice u (log w1) =? 2)); [|done].
    assert (World_le w0 (if choice u (log w1) =? 0
                         then SaveAllOpenNodes env w1 else w1)) as H2.
    { destruct (_ =? 0); [by apply SaveAllOpenNodes_le|done]. }
    destruct fun_ as [f|]; [by apply (Hf f)|done].
Qed.

Lemma SaveProjAs_le u filename saveAllFiles w0 w :
  World_le w0 w → World_le w0 (SaveProjAs env u filename saveAllFiles w).1.
Proof.
  intros Hle. unfold SaveProjAs.
  assert (World_le w0 (emit (ProjSave filename)
            (upd_ge (upd_Prefs (upd_ProjFilename (λ _, filename))) w))) as H1.
  { apply emit_le. by eapply World_le_same; [..|exact Hle]. }
  destruct saveAllFiles; [|done].
  by apply SaveAllCheck_le.
Qed.

Lemma SaveProjIfExists_le u saveAllFiles w0 w :
  World_le w0 w → World_le w0 (SaveProjIfExists env u saveAllFiles w).1.
Proof.
  intros Hle. unfold SaveProjIfExists.
  case_bool_decide; [done|].
  destruct (negb _); [done|]. cbn [fst]. by apply SaveProjAs_le.
Qed.

Lemma CommitUpdtLog_le u cmdnm w0 w :
  World_le w0 w → World_le w0 (CommitUpdtLog env u cmdnm w).
Proof.
  intros Hle. unfold CommitUpdtLog, FindOrMakeMainTabTextView.
  pose proof (FindOrMakeMainTab_le cmdnm false w0 w Hle) as H1.
  destruct (FindOrMakeMainTab cmdnm false w) as [w1 idx]. cbn [fst] in H1.
  destruct (MainTabs (ge w1) !! idx) as [[? [?|]]|]; try done.
  by apply SaveProjIfExists_le.
Qed.

Lemma CommitNoChecks_le u w0 w :
  World_le w0 w → World_le w0 (CommitNoChecks env u w).
Proof.
  intros Hle. unfold CommitNoChecks.
  case_bool_decide; [by apply emit_le|].
  set (w1 := emit _ (Gide_SetArgVarVals w)).
  assert (World_le w0 w1) as H1 by by apply emit_le, Gide_SetArgVarVals_le.
  destruct (prompt_answer u (log w1)) as [msg|]; [|done].
  apply CommitUpdtLog_le, ExecCmdName_le.
  by eapply World_le_same; [..|exact H1].
Qed.

Lemma Build_le u w0 w : World_le w0 w → World_le w0 (Build env u w).
Proof.
  intros Hle. unfold Build. case_bool_decide; [by apply emit_le|].
  apply SaveAllCheck_le; [|done].
  intros f w1 [= <-] H1. by apply ExecCmds_le.
Qed.

Lemma Run_le w0 w : World_le w0 w → World_le w0 (Run env w).
Proof.
  intros Hle. unfold Run. case_bool_decide; [by apply emit_le|].
  by apply ExecCmds_le.
Qed.

Lemma Commit_le u w0 w : World_le w0 w → World_le w0 (Commit env u w).
Proof.
  intros Hle. unfold Commit. case_bool_decide; [by apply emit_le|].
  apply SaveAllCheck_le; [|done].
  intros f w1 [= <-] H1. by apply CommitNoChecks_le.
Qed.

Lemma GideKeys_dispatch_le u kf kt w0 w :
  World_le w0 w → World_le w0 (GideKeys_dispatch env u kf kt w).1.
Proof.
  intros Hle. unfold GideKeys_dispatch.
  destruct kf; cbn [fst]; try done; repeat apply emit_le; try done.
  - by apply Build_le.
  - by apply Run_le.
Qed.

Lemma GideKeys_switch_le u gkf kf kt w0 w :
  World_le w0 w → World_le w0 (GideKeys_switch env u gkf kf kt w).1.
Proof.
  intros Hle. unfold GideKeys_switch.
  destruct gkf; cbn; repeat case_match; cbn [fst];
    try apply GideKeys_dispatch_le; try apply emit_le; done.
Qed.

End World_le_facts.

(** ** Command buffers *)

Section CmdBuf_facts.

Lemma lookup_alter_New (h : gmap loc TextBuf) (b : loc) :
  is_Some (h !! b) → Lines <$> (alter (TextBuf_New 0) b h !! b) = Some [].
Proof. intros [x Hx]. rewrite lookup_alter_eq, Hx. done. Qed.

(** What a call does when the name has a buffer. *)
Lemma FindOrMakeCmdBuf_found cmdNm clear w m buf :
  CmdBufs (ge w) = Some m → m !! cmdNm = Some buf →
  FindOrMakeCmdBuf cmdNm clear w
  = (if clear then upd_heap (alter (TextBuf_New 0) buf) w else w, buf, false).
Proof. intros Hm Hb. unfold FindOrMakeCmdBuf. rewrite !Hm. cbn. by rewrite Hb. Qed.

(** What a call does when the name has no buffer yet: the table holds the
    name afterwards, bound to a buffer that was not in the heap. *)
Lemma FindOrMakeCmdBuf_made cmdNm clear w :
  default ∅ (CmdBufs (ge w)) !! cmdNm = None →
  let r := FindOrMakeCmdBuf cmdNm clear w in
  r.1.2 = fresh (dom (heap w)) ∧ r.2 = true
  ∧ CmdBufs (ge r.1.1) = Some (<[cmdNm := r.1.2]> (default ∅ (CmdBufs (ge w))))
  ∧ heap r.1.1 = <[r.1.2 := {| Nm := cmdNm +:+ "-buf"; Lines := [];
                               Autosave := false |}]> (heap w).
Proof.
  intros Hn. unfold FindOrMakeCmdBuf.
  destruct (CmdBufs (ge w)) as [m|] eqn:Hm; cbn in *; rewrite ?Hm; cbn;
    rewrite ?Hn, ?lookup_empty; cbn; repeat split;
    rewrite ?Hm, ?alter_insert_eq; done.
Qed.

(** The invariant holds at the start and is kept. *)
Lemma CmdBufs_wf_nil w : CmdBufs (ge w) = None → CmdBufs_wf w.
Proof. intros Hn nm buf. rewrite Hn. cbn. by rewrite lookup_empty. Qed.

Lemma FindOrMakeCmdBuf_wf cmdNm clear w :
  CmdBufs_wf w → CmdBufs_wf (FindOrMakeCmdBuf cmdNm clear w).1.1.
Proof.
  intros Hwf.
  destruct (default ∅ (CmdBufs (ge w)) !! cmdNm) as [b|] eqn:Hb.
  - destruct (CmdBufs (ge w)) as [m|] eqn:Hm; cbn in Hb; [|by rewrite lookup_empty in Hb].
    rewrite (FindOrMakeCmdBuf_found _ _ _ m b) by done. cbn [fst].
    intros nm buf. destruct clear; cbn; rewrite ?Hm; cbn; intros Hl.
    + pose proof (Hwf nm buf) as Hh. rewrite Hm in Hh. specialize (Hh Hl).
      rewrite lookup_alter. case_decide; [subst|done].
      destruct Hh as [x ->]. eauto.
    + apply (Hwf nm buf). by rewrite Hm.
  - pose proof (FindOrMakeCmdBuf_made cmdNm clear w Hb) as (Hb1 & _ & Hc & Hh).
    intros nm buf. rewrite Hc, Hh. cbn. intros Hl.
    destruct (decide (nm = cmdNm)) as [->|Hne].
    + rewrite lookup_insert_eq in Hl. injection Hl as <-.
      rewrite lookup_insert_eq. eauto.
    + rewrite lookup_insert_ne in Hl by done.
      rewrite lookup_insert. case_decide; [eauto|]. by apply (Hwf nm).
Qed.

End CmdBuf_facts.

Section CmdBuf_claims.

Import Samples.

(** C8. Two calls of [FindOrMakeCmdBuf] for one name give the same
    buffer: the second call finds it, creates nothing and leaves every
    other buffer as it was. With [clear] set, the buffer that a call finds
    has no line afterwards, at the same address. A buffer that a call
    creates is new in the heap, has no line, and has [Autosave] off. *)
Theorem FindOrMakeCmdBuf_twice (cmdNm : string) (c1 c2 : bool) (w : World) :
  CmdBufs_wf w →
  let r1 := FindOrMakeCmdBuf cmdNm c1 w in
  let r2 := FindOrMakeCmdBuf cmdNm c2 r1.1.1 in
  r2.1.2 = r1.1.2
  ∧ r2.2 = false
  ∧ dom (heap r2.1.1) = dom (heap r1.1.1)
  ∧ (∀ l, l ≠ r1.1.2 → heap r2.1.1 !! l = heap r1.1.1 !! l)
  ∧ (if c2 then Lines <$> (heap r2.1.1 !! r1.1.2) = Some []
     else heap r2.1.1 = heap r1.1.1)
  ∧ (if r1.2
     then heap w !! r1.1.2 = None
          ∧ heap r1.1.1 !! r1.1.2
            = Some {| Nm := cmdNm +:+ "-buf"; Lines := []; Autosave := false |}
     else if c1 then Lines <$> (heap r1.1.1 !! r1.1.2) = Some []
          else heap r1.1.1 = heap w).
Proof.
  intros Hwf r1 r2.
  pose proof (FindOrMakeCmdBuf_wf cmdNm c1 w Hwf) as Hwf1. fold r1 in Hwf1.
  (* after the first call the name is in the table *)
  assert (∃ m1, CmdBufs (ge r1.1.1) = Some m1 ∧ m1 !! cmdNm = Some r1.1.2)
    as (m1 & Hm1 & Hb1).
  { unfold r1.
    destruct (default ∅ (CmdBufs (ge w)) !! cmdNm) as [b|] eqn:Hb.
    - destruct (CmdBufs (ge w)) as [m|] eqn:Hm; cbn in Hb;
        [|by rewrite lookup_empty in Hb].
      rewrite (FindOrMakeCmdBuf_found _ _ _ m b) by done.
      exists m. by destruct c1.
    - pose proof (FindOrMakeCmdBuf_made cmdNm c1 w Hb) as (_ & _ & Hc & _).
      eexists. split; [exact Hc|]. by rewrite lookup_insert_eq. }
  assert (Hr2 : r2 = (if c2 then upd_heap (alter (TextBuf_New 0) r1.1.2) r1.1.1
                      else r1.1.1, r1.1.2, false)).
  { unfold r2. by apply (FindOrMakeCmdBuf_found _ _ _ m1). }
  assert (Hin1 : is_Some (heap r1.1.1 !! r1.1.2)).
  { apply (Hwf1 cmdNm). by rewrite Hm1. }
  rewrite Hr2. cbn [fst snd].
  split; [done|]. split; [done|].
  split; [destruct c2; [apply dom_alter_L|done]|].
  split.
  { intros l Hne. destruct c2; [|done]. cbn. by rewrite lookup_alter_ne. }
  split.
  { destruct c2; [|done]. cbn. by apply lookup_alter_New. }
  unfold r1 in *. clear Hr2 r2.
  destruct (default ∅ (CmdBufs (ge w)) !! cmdNm) as [b|] eqn:Hb.
  - destruct (CmdBufs (ge w)) as [m|] eqn:Hm; cbn in Hb;
      [|by rewrite lookup_empty in Hb].
    rewrite (FindOrMakeCmdBuf_found _ _ _ m b) by done. cbn [fst snd].
    destruct c1; [|done]. cbn. apply lookup_alter_New.
    apply (Hwf cmdNm). by rewrite Hm.
  - pose proof (FindOrMakeCmdBuf_made cmdNm c1 w Hb) as (Hf & -> & _ & Hh).
    rewrite Hh, lookup_insert_eq. split; [|done].
    rewrite Hf. apply not_elem_of_dom, is_fresh.
Qed.

Lemma FindOrMakeCmdBuf_twice_witness :
  let r1 := FindOrMakeCmdBuf "Build" true w0 in
  let r2 := FindOrMakeCmdBuf "Build" true r1.1.1 in
  r2.1.2 = r1.1.2 ∧ r2.2 = false.
Proof.
  pose proof (FindOrMakeCmdBuf_twice "Build" true true w0
                (CmdBufs_wf_nil w0 eq_refl)) as (H1 & H2 & _).
  split; [exact H1 | exact H2].
Defined.

End CmdBuf_claims.

(** ** Keys *)

Section GideKeys_claims.

Import Samples UnixPaths.

(** C10. A key that arrives while a first chord is pending ends the
    sequence: whatever the key is -- the second chord of a known sequence,
    an unknown one, or [Escape] -- and whatever the key maps answer,
    [KeySeq1] is empty when [GideKeys] is done. *)
Theorem GideKeys_resets_pending_chord `{PathLib}
    (env : Env) (u : User) (kt : ChordEvent) (w : World) :
  KeySeq1 (ge w) ≠ "" →
  KeySeq1 (ge (GideKeys env u kt w).1) = "".
Proof.
  intros Hpending. unfold GideKeys.
  rewrite bool_decide_eq_false_2 by done. cbn [negb].
  destruct (_ || _); [done|].
  match goal with |- context [GideKeys_switch _ _ _ _ _ ?w1] =>
    destruct (GideKeys_switch_le env u gi_KeyFunNil
                (KeyFun env (KeySeq1 (ge w)) (Chord kt)) kt w1 w1
                (World_le_refl w1)) as [Hk _]
  end.
  by rewrite Hk.
Qed.

Lemma GideKeys_resets_pending_chord_witness :
  KeySeq1 (ge (GideKeys env0 u_cancel
                 {| Chord := "Control+S"; IsProcessed := false |} w_pending).1)
  = "".
Proof. apply GideKeys_resets_pending_chord. by vm_compute. Defined.

End GideKeys_claims.

(** ** Build, Run and Commit *)

Section Chain_facts.

Context `{PathLib} (env : Env).

(** With unsaved files [SaveAllCheck] first shows its dialog; what
    follows comes after that event, and nothing follows when the user
    picks the third button. *)
Lemma SaveAllCheck_unsaved (u : User) (cancelOpt : bool)
    (fun_ : option (World → World)) (w : World) :
  NChangedFiles w ≠ 0 →
  let dlg := ChoiceDialog "There are Unsaved Files"
               (if cancelOpt then ["Save All"; "Don't Save"; "Cancel Command"]
                else ["Save All"; "Don't Save"]) in
  (∀ f w1, fun_ = Some f → World_le (emit dlg w) w1 → World_le (emit dlg w) (f w1)) →
  World_le (emit dlg w) (SaveAllCheck env u cancelOpt fun_ w).1
  ∧ (choice u (log w ++ [dlg]) = 2 →
     (SaveAllCheck env u cancelOpt fun_ w).1 = emit dlg w).
Proof.
  intros Hn dlg Hf. unfold SaveAllCheck.
  apply Z.eqb_neq in Hn. rewrite Hn. cbn [fst]. fold dlg.
  change (log (emit dlg w)) with (log w ++ [dlg]).
  split.
  - destruct (negb _); [|apply World_le_refl].
    assert (World_le (emit dlg w)
              (if choice u (log w ++ [dlg]) =? 0
               then SaveAllOpenNodes env (emit dlg w) else emit dlg w)) as H2.
    { destruct (choice u (log w ++ [dlg]) =? 0);
        [apply SaveAllOpenNodes_le|]; apply World_le_refl. }
    destruct fun_ as [f|]; [by apply (Hf f)|done].
  - intros ->. done.
Qed.

Lemma World_le_emit_log e w w' :
  World_le (emit e w) w' → ∃ rest, log w' = log w ++ e :: rest.
Proof.
  intros [_ [l Hl]]. exists l. rewrite Hl. cbn. by rewrite <- app_assoc.
Qed.

(** The first command name that contains ["Commit"], as the loop of
    [CommitNoChecks] finds it. *)
Lemma CommitCmdName_list_find cmds :
  CommitCmdName cmds
  = match list_find (λ c, strings_Contains c "Commit" = true) cmds with
    | Some (_, cm) => cm
    | None => ""
    end.
Proof.
  induction cmds as [|c rest IH]; [done|].
  cbn [CommitCmdName list_find]. case_decide as Hc.
  - by rewrite Hc.
  - apply not_true_is_false in Hc. rewrite Hc, IH.
    by destruct (list_find _ rest) as [[? ?]|].
Qed.

(** A command that is in the catalog is run, on some buffer. *)
Lemma ExecCmdName_runs cmdNm sel clearBuf w :
  cmdNm ∈ AvailCmds env →
  ∃ b l, log (ExecCmdName env cmdNm sel clearBuf w) = l ++ [CmdRun cmdNm b].
Proof.
  intros Hin. unfold ExecCmdName, CmdByName.
  rewrite bool_decide_eq_true_2 by done. cbn [negb].
  destruct (FindOrMakeCmdTab _ _ _ _) as [[[w2 cbuf] idx] nw].
  by exists cbuf, (log w2).
Qed.

End Chain_facts.

Section Chain_claims.

Import Samples UnixPaths.

(** C5, as stated, fails for [Run]. With a file that has unsaved changes,
    [Run] shows no dialog and runs its command. *)
Lemma Run_without_SaveAllCheck_counterexample :
  NChangedFiles w0 = 1
  ∧ log (Run env0 w0) = [SelectTab "Run Proj"; CmdRun "Run Proj" 1%positive].
Proof. by vm_compute. Qed.

(** C5, amended. With unsaved files, [Build] and [Commit] first show the
    dialog of [SaveAllCheck], with its third button [Cancel Command];
    everything else they do comes after it, and when the user picks that
    button they do nothing else: no command is run and the world is the
    one before, with that one event more. [Run] starts its commands
    directly. *)
Theorem SaveAllCheck_gates_Build_and_Commit `{PathLib}
    (env : Env) (u : User) (w : World) :
  NChangedFiles w ≠ 0 →
  BuildCmds (Prefs (ge w)) ≠ [] →
  VersCtrl (Prefs (ge w)) ≠ "" →
  RunCmds (Prefs (ge w)) ≠ [] →
  let dlg := ChoiceDialog "There are Unsaved Files"
               ["Save All"; "Don't Save"; "Cancel Command"] in
  (∃ rest, log (Build env u w) = log w ++ dlg :: rest)
  ∧ (∃ rest, log (Commit env u w) = log w ++ dlg :: rest)
  ∧ (choice u (log w ++ [dlg]) = 2 →
     Build env u w = emit dlg w ∧ Commit env u w = emit dlg w)
  ∧ Run env w = ExecCmds env (RunCmds (Prefs (ge w))) true true w.
Proof.
  intros Hn Hb Hv Hr dlg.
  unfold Build, Commit, Run.
  rewrite !bool_decide_eq_false_2 by done.
  pose proof (SaveAllCheck_unsaved env u true
    (Some (λ w', ExecCmds env (BuildCmds (Prefs (ge w'))) true true w')) w Hn)
    as [HB1 HB2].
  { intros f w1 [= <-] H1. by apply ExecCmds_le. }
  pose proof (SaveAllCheck_unsaved env u true (Some (CommitNoChecks env u)) w Hn)
    as [HC1 HC2].
  { intros f w1 [= <-] H1. by apply CommitNoChecks_le. }
  split; [by apply World_le_emit_log|].
  split; [by apply World_le_emit_log|].
  split; [|done].
  intros Hc. split; [by apply HB2 | by apply HC2].
Qed.

Lemma SaveAllCheck_gates_Build_and_Commit_witness :
  Build env0 u_cancel w0
  = emit (ChoiceDialog "There are Unsaved Files"
            ["Save All"; "Don't Save"; "Cancel Command"]) w0.
Proof.
  pose proof (SaveAllCheck_gates_Build_and_Commit env0 u_cancel w0)
    as (_ & _ & Hc & _); [by vm_compute..|].
  by apply Hc.
Defined.

(** C7. [CommitNoChecks] takes the first name, in the order of the
    filtered list, that contains ["Commit"], and that command is the one
    it runs once the message is entered. When no name contains
    ["Commit"], it shows the dialog [No Commit command found] and that is
    all: the [Gide] object, the value map, the flag, the buffers are the
    ones before, and no command is among the new events. *)
Theorem CommitNoChecks_first_Commit_command `{PathLib}
    (env : Env) (u : User) (w : World) :
  let cmds := FilterCmdNames env (ActiveLang (ge w)) (VersCtrl (Prefs (ge w))) in
  let w' := CommitNoChecks env u w in
  match list_find (λ c, strings_Contains c "Commit" = true) cmds with
  | Some (_, cm) =>
      CommitCmdName cmds = cm ∧ cm ≠ ""
      ∧ (∀ msg,
           prompt_answer u (log w ++ [StringPromptDialog "Commit Message"]) = Some msg →
           cm ∈ AvailCmds env →
           ∃ b, CmdRun cm b ∈ log w')
  | None =>
      w' = emit (PromptDialog "No Commit command found") w
      ∧ ge w' = ge w ∧ ArgVarVals w' = ArgVarVals w
      ∧ CmdNoUserPrompt w' = CmdNoUserPrompt w ∧ heap w' = heap w
      ∧ log w' = log w ++ [PromptDialog "No Commit command found"]
  end.
Proof.
  intros cmds w'. unfold w', CommitNoChecks. fold cmds.
  rewrite (CommitCmdName_list_find cmds).
  destruct (list_find _ cmds) as [[i cm]|] eqn:Hfind; [|done].
  apply list_find_Some in Hfind as (_ & Hcm & _).
  assert (Hne : cm ≠ "") by (by intros ->).
  split; [done|]. split; [done|].
  rewrite bool_decide_eq_false_2 by done.
  change (log (emit ?e (Gide_SetArgVarVals w))) with (log w ++ [e]).
  intros msg -> Hin.
  match goal with |- context [CommitUpdtLog env u cm ?w2] =>
    destruct (CommitUpdtLog_le env u cm w2 w2 (World_le_refl w2)) as [_ [l Hl]];
    rewrite Hl
  end.
  match goal with |- context [ExecCmdName env cm true true ?w1] =>
    destruct (ExecCmdName_runs env cm true true w1 Hin) as (b & l0 & ->)
  end.
  exists b. rewrite !elem_of_app, list_elem_of_singleton. by left; right.
Qed.

(** The answer to the commit prompt is still the value of
    [{PromptString1}] when the next command, a build, is run. *)
Lemma prompt_answer_outlives_Commit :
  map_get (ArgVarVals (Build env0 u_commit (Commit env0 u_commit w0)))
    "{PromptString1}" = Some "first commit".
Proof. by vm_compute. Qed.

End Chain_claims.

(** ** More on byte slices *)

Section Replace_facts.

Import Bind.

Implicit Types (s p old new : bytes) (c : ascii).

(** A prefix is made of bytes of the slice. *)
Lemma HasPrefix_elem s p c : HasPrefix s p = true → c ∈ p → c ∈ s.
Proof.
  revert s. induction p as [|y p IH]; intros s Hp Hc; [by apply elem_of_nil in Hc|].
  destruct s as [|x s]; [done|]. cbn in Hp.
  destruct (Ascii.eqb_spec x y) as [->|]; [|done].
  apply elem_of_cons in Hc as [->|Hc]; [by left|right; by apply IH].
Qed.

(** Nothing is replaced in a slice that lacks a byte of the pattern. *)
Lemma ReplaceAll_absent s old new c : c ∈ old → c ∉ s → ReplaceAll s old new = s.
Proof.
  intros Hold. unfold ReplaceAll. induction s as [|x s IH]; intros Hs; [done|].
  cbn [Replace_skip].
  destruct (HasPrefix (x :: s) old) eqn:Hp.
  - exfalso. apply Hs. by eapply HasPrefix_elem.
  - f_equal. apply IH. by apply not_elem_of_cons in Hs as [_ ?].
Qed.

(** The pass after the loop on a slice whose opening braces all follow a
    backslash: each loses its backslash. *)
Lemma ReplaceAll_quoted p r :
  lb ∉ p →
  ReplaceAll (p ++ backslash :: lb :: r) (of_string "\{") (of_string "{")
  = p ++ lb :: ReplaceAll r (of_string "\{") (of_string "{").
Proof.
  intros Hp. unfold ReplaceAll.
  change (of_string "\{") with [backslash; lb]. change (of_string "{") with [lb].
  induction p as [|x p IH].
  - cbn [app Replace_skip HasPrefix length Nat.sub].
    rewrite !Ascii.eqb_refl. by destruct r.
  - apply not_elem_of_cons in Hp as [Hx Hp].
    cbn [app Replace_skip].
    assert (HasPrefix (x :: p ++ backslash :: lb :: r) [backslash; lb] = false) as ->.
    { cbn [HasPrefix]. destruct (Ascii.eqb_spec x backslash); [|done].
      destruct p as [|y p]; cbn [app]; rewrite HasPrefix_single_cons.
      - done.
      - apply not_elem_of_cons in Hp as [Hy _].
        by rewrite bool_decide_eq_false_2. }
    by rewrite IH.
Qed.

Lemma platform_seps_no_brace windows s : lb ∉ s → platform_seps windows s = s.
Proof.
  intros Hs. destruct windows; [|done]. cbn.
  apply (ReplaceAll_absent _ _ _ lb); [by_decide|done].
Qed.

Lemma slice_from_app_app (a b c : bytes) :
  slice_from ((a ++ b) ++ c) (len a) = b ++ c.
Proof. rewrite <- app_assoc. apply slice_from_app. Qed.

Lemma len_cons c (a : bytes) : len (c :: a) = 1 + len a.
Proof. unfold len. cbn [length]. lia. Qed.

Lemma last_app_ne (a b : bytes) c :
  last a ≠ Some c → last b ≠ Some c → last (a ++ b) ≠ Some c.
Proof. rewrite last_app. by destruct (last b). Qed.

End Replace_facts.

(** ** The scanning loop on whole templates *)

Section Bind_more.

Import Bind.

Lemma of_string_template_cons t n rest lst :
  of_string (template ((t, n) :: rest) lst)
  = of_string t ++ lb :: of_string n ++ rb :: of_string (template rest lst).
Proof. cbn [template]. apply of_string_template. Qed.

Lemma len_lt_app_cons (a b : bytes) c d : len a < len (a ++ b ++ c :: d).
Proof.
  rewrite !len_app. pose proof (len_nonneg b). pose proof (len_nonneg d).
  unfold len at 4. cbn [length]. unfold len in *. lia.
Qed.

Lemma loop_S n vals s :
  loop (S n) vals s
  = if ci s <? sz s
    then match body vals s with Break s' => Some s' | Next s' => loop n vals s' end
    else Some s.
Proof. done. Qed.

(** The loop at a last text: it stops there and leaves the buffer alone. *)
Lemma loop_stops vals (D : bytes) lst gq :
  last D ≠ Some backslash → stops lst →
  ∃ s', loop 1 vals (Scan (D ++ of_string lst) (len (D ++ of_string lst)) (len D) gq)
        = Some s'
        ∧ bs s' = D ++ of_string lst ∧ gotquote s' = gq.
Proof.
  intros HD Hstop. cbn [loop ci sz].
  destruct (len D <? len (D ++ of_string lst)) eqn:Hlt; [|eauto].
  destruct Hstop as [Hno | (t & rest & -> & [Ht Htl] & Hrest)].
  - unfold body. cbn [bs ci sz gotquote]. rewrite slice_from_app.
    change lbrace with [lb]. rewrite Index_absent by done. cbn. eauto.
  - rewrite !of_string_app. change (of_string "{") with [lb]. cbn [app].
    unfold body. cbn [bs ci sz gotquote]. rewrite slice_from_app.
    change lbrace with [lb]. change rbrace with [rb].
    rewrite (Index_first (of_string t) lb) by done.
    pose proof (len_nonneg (of_string t)).
    replace (len (of_string t) <? 0) with false by (symmetry; apply Z.ltb_ge; lia).
    replace (len D + len (of_string t)) with (len (D ++ of_string t)) by apply len_app.
    rewrite (app_assoc D).
    assert ((len (D ++ of_string t) - 1 >=? 0)
            && bool_decide (at_ ((D ++ of_string t) ++ lb :: of_string rest)
                              (len (D ++ of_string t) - 1) = Some backslash)
            = false) as ->.
    { destruct (decide (D ++ of_string t = [])) as [->|Hne]; [done|].
      rewrite at_before_app by done.
      rewrite bool_decide_eq_false_2 by (by apply last_app_ne).
      apply andb_false_r. }
    rewrite slice_from_app_cons, Index_absent by done. cbn. eauto.
Qed.

(** The loop on a template of expandable tokens: one round for each
    token, and the buffer at the end is the expansion. *)
Lemma loop_expands vals segs lst (D : bytes) :
  last D ≠ Some backslash → Forall (expandable vals) segs → stops lst →
  ∃ s', loop (S (length segs)) vals
          (Scan (D ++ of_string (template segs lst))
                (len (D ++ of_string (template segs lst))) (len D) false)
        = Some s'
        ∧ bs s' = D ++ of_string (expansion vals segs lst) ∧ gotquote s' = false.
Proof.
  intros HD Hsegs Hstop. revert D HD.
  induction Hsegs as [|[t n] rest ([Ht Htl] & (Hn & Hprompt & [v Hv]) & Hvl) _ IH];
    intros D HD.
  - by apply loop_stops.
  - cbn [fst snd] in *. rewrite Hv in Hvl. cbn [default] in Hvl.
    rewrite of_string_template_cons.
    set (T := of_string t) in *. set (N := of_string n) in *.
    set (R := of_string (template rest lst)).
    change (S (length ((t, n) :: rest))) with (S (S (length rest))).
    rewrite loop_S. cbn [ci sz].
    replace (len D <? len (D ++ T ++ lb :: N ++ rb :: R)) with true
      by (symmetry; apply Z.ltb_lt, len_lt_app_cons).
    rewrite body_at_token; [|done|by apply last_app_ne|done]. cbn zeta.
    assert (Hkey : to_string (lb :: N ++ [rb]) = token n)
      by (unfold N; by rewrite <- of_string_token, to_of_string).
    rewrite Hkey, Hprompt, Hv.
    replace (len (D ++ T ++ lb :: N ++ rb :: R) - (len N + (len (D ++ T) + 1) + 1))
      with (len R).
    2:{ unfold len. rewrite !length_app. cbn [length].
        rewrite !length_app. cbn [length]. lia. }
    rewrite make_copy_exact.
    destruct (IH ((D ++ T) ++ of_string v)) as (s' & Hl & Hbs & Hgq).
    { by repeat apply last_app_ne. }
    exists s'. fold R in Hl. rewrite Hl. split; [done|]. split; [|done].
    rewrite Hbs. cbn [expansion]. rewrite Hv. cbn [default].
    rewrite !of_string_app. fold T. by rewrite <- !app_assoc.
Qed.

(** The round of the loop that meets a quoted brace: the bytes [P] from
    the scan to the brace hold no opening brace and the byte before the
    brace is a backslash. *)
Lemma body_at_quoted vals (D P R : bytes) sz0 gq :
  lb ∉ P → last (D ++ P) = Some backslash →
  body vals (Scan ((D ++ P) ++ lb :: R) sz0 (len D) gq)
  = Next (Scan ((D ++ P) ++ lb :: R) sz0 (len ((D ++ P) ++ [lb])) true).
Proof.
  intros HP Hlast. unfold body. cbn [bs ci sz gotquote].
  rewrite slice_from_app_app.
  change lbrace with [lb]. rewrite (Index_first P lb) by done.
  pose proof (len_nonneg P). pose proof (len_nonneg D).
  replace (len P <? 0) with false by (symmetry; apply Z.ltb_ge; lia).
  replace (len D + len P) with (len (D ++ P)) by apply len_app.
  assert (D ++ P ≠ []) by (intros E; by rewrite E in Hlast).
  rewrite at_before_app, Hlast by done.
  rewrite bool_decide_eq_true_2 by done.
  assert (0 < len (D ++ P)).
  { destruct (D ++ P); [done|]. rewrite len_cons. pose proof (len_nonneg l). lia. }
  replace (len (D ++ P) - 1 >=? 0) with true by (symmetry; apply Z.geb_le; lia).
  cbn [andb]. by rewrite (len_app _ [lb]).
Qed.

(** The loop on texts joined by quoted braces: one round for each brace,
    and the buffer is left as it is. *)
Lemma loop_quoted vals texts lst (D : bytes) gq :
  Forall (λ t, lb ∉ of_string t) texts → lb ∉ of_string lst →
  ∃ s', loop (S (length texts)) vals
          (Scan (D ++ of_string (joined "\{" texts lst))
                (len (D ++ of_string (joined "\{" texts lst))) (len D) gq)
        = Some s'
        ∧ bs s' = D ++ of_string (joined "\{" texts lst)
        ∧ gotquote s' = gq || negb (bool_decide (texts = [])).
Proof.
  intros Htexts Hlst. revert D gq.
  induction Htexts as [|t rest Ht _ IH]; intros D gq.
  - cbn [joined length loop ci sz]. rewrite orb_false_r.
    destruct (len D <? len (D ++ of_string lst)); [|eauto].
    unfold body. cbn [bs ci sz gotquote]. rewrite slice_from_app.
    change lbrace with [lb]. rewrite Index_absent by done. cbn. eauto.
  - set (P := of_string t ++ [backslash]).
    set (R := of_string (joined "\{" rest lst)).
    assert (HP : lb ∉ P).
    { unfold P. rewrite elem_of_app, list_elem_of_singleton. by intros [?|?]. }
    assert (E : D ++ of_string (joined "\{" (t :: rest) lst) = (D ++ P) ++ lb :: R).
    { cbn [joined]. rewrite !of_string_app. unfold P, R.
      change (of_string "\{") with [backslash; lb]. by rewrite <- !app_assoc. }
    rewrite E.
    change (S (length (t :: rest))) with (S (S (length rest))).
    rewrite loop_S. cbn [ci sz].
    pose proof (len_nonneg D). pose proof (len_nonneg P). pose proof (len_nonneg R).
    assert (HlenP : len P = len (of_string t) + 1) by (unfold P; by rewrite len_app).
    pose proof (len_nonneg (of_string t)).
    replace (len D <? len ((D ++ P) ++ lb :: R)) with true.
    2:{ symmetry. apply Z.ltb_lt. rewrite !len_app, len_cons. lia. }
    rewrite body_at_quoted;
      [|done|unfold P; rewrite app_assoc; apply last_snoc].
    destruct (IH ((D ++ P) ++ [lb]) true) as (s' & Hl & Hbs & Hgq).
    fold R in Hl, Hbs.
    replace (((D ++ P) ++ [lb]) ++ R) with ((D ++ P) ++ lb :: R) in Hl, Hbs
      by (by rewrite <- !app_assoc).
    exists s'. rewrite Hl. split; [done|]. split; [done|].
    rewrite Hgq. by rewrite orb_true_r.
Qed.

(** The pass after the loop on texts joined by quoted braces. *)
Lemma ReplaceAll_joined texts lst :
  Forall (λ t, lb ∉ of_string t) texts → lb ∉ of_string lst →
  ReplaceAll (of_string (joined "\{" texts lst)) (of_string "\{") (of_string "{")
  = of_string (joined "{" texts lst).
Proof.
  intros Htexts Hlst. induction Htexts as [|t rest Ht _ IH].
  - apply (ReplaceAll_absent _ _ _ lb); [by_decide|done].
  - cbn [joined]. rewrite !of_string_app.
    change (of_string "\{") with [backslash; lb] at 1.
    change (of_string "{") with [lb] at 2. cbn [app].
    rewrite ReplaceAll_quoted by done. by rewrite IH.
Qed.

End Bind_more.

Section Bind_extras.

Import Bind Samples UnixPaths.

Lemma returns_of_loop windows vals arg s' fuel :
  loop fuel vals (Scan (of_string arg) (len (of_string arg)) 0 false) = Some s' →
  BindArgVars_returns windows vals arg (finish windows s').
Proof.
  intros Hl. exists fuel. unfold BindArgVars. by rewrite start_eq, Hl.
Qed.

(** X1. A template without opening brace is returned as it is, whatever
    the value map holds and on either platform. *)
Theorem BindArgVars_no_brace_identity
    (windows : bool) (vals : ValMap) (arg : string) :
  lb ∉ of_string arg →
  BindArgVars_returns windows vals arg arg.
Proof.
  intros Harg.
  destruct (loop_stops vals [] arg false) as (s' & Hl & Hbs & Hgq);
    [done|by left|].
  cbn [app] in Hl, Hbs. change (len []) with 0 in Hl.
  replace arg with (finish windows s') at 2; [by eapply returns_of_loop|].
  unfold finish. rewrite Hgq, Hbs, platform_seps_no_brace by done.
  apply to_of_string.
Qed.

Lemma BindArgVars_no_brace_identity_witness :
  BindArgVars_returns true (Some ∅) "go build -v ./..." "go build -v ./...".
Proof. apply BindArgVars_no_brace_identity. by_decide. Defined.

(** X2. Every token of a template is replaced by its value, in one pass,
    when each token is a key of the value map (and no [Prompt] token) and
    no brace is quoted by a backslash before it; the scan stops at the end
    of the template or at an opening brace that is never closed, and what
    is left from there is returned as it is. *)
Theorem BindArgVars_expands_known_tokens
    (windows : bool) (vals : ValMap) (segs : list (string * string)) (lst : string) :
  Forall (expandable vals) segs → stops lst →
  BindArgVars_returns windows vals (template segs lst)
    (platform_string windows (expansion vals segs lst)).
Proof.
  intros Hsegs Hstop.
  destruct (loop_expands vals segs lst [] ltac:(done) Hsegs Hstop)
    as (s' & Hl & Hbs & Hgq).
  cbn [app] in Hl, Hbs. change (len []) with 0 in Hl.
  replace (platform_string windows (expansion vals segs lst))
    with (finish windows s'); [by eapply returns_of_loop|].
  unfold finish, platform_string. by rewrite Hgq, Hbs.
Qed.

Lemma BindArgVars_expands_known_tokens_witness :
  BindArgVars_returns false
    (Some {[ "{FileDirPath}" := "/home/u/proj/cmd"; "{FileName}" := "main.go" ]})
    "gofmt -w {FileDirPath}/{FileName} # {todo"
    "gofmt -w /home/u/proj/cmd/main.go # {todo".
Proof.
  set (V := Some {[ "{FileDirPath}" := "/home/u/proj/cmd"; "{FileName}" := "main.go" ]}
             : ValMap).
  change (BindArgVars_returns false V
            (template [("gofmt -w ", "FileDirPath"); ("/", "FileName")] " # {todo")
            (platform_string false
               (expansion V [("gofmt -w ", "FileDirPath"); ("/", "FileName")]
                  " # {todo"))).
  apply BindArgVars_expands_known_tokens.
  - repeat apply Forall_cons_2; try apply Forall_nil_2;
      (split; [split; by_decide | split; [|by_decide]]);
      (split; [by_decide | split; [reflexivity | by vm_compute; eauto]]).
  - right. exists " # ", "todo". split; [reflexivity|]. split; [split|]; by_decide.
Defined.

(** X3. In a template whose opening braces all follow a backslash, each
    of them is kept and loses its backslash; the value map is not looked
    at. *)
Theorem BindArgVars_unquotes_braces
    (windows : bool) (vals : ValMap) (texts : list string) (lst : string) :
  Forall (λ t, lb ∉ of_string t) texts → lb ∉ of_string lst →
  BindArgVars_returns windows vals (joined "\{" texts lst)
    (platform_string windows (joined "{" texts lst)).
Proof.
  intros Htexts Hlst.
  destruct (loop_quoted vals texts lst [] false Htexts Hlst)
    as (s' & Hl & Hbs & Hgq).
  cbn [app] in Hl, Hbs. change (len []) with 0 in Hl.
  replace (platform_string windows (joined "{" texts lst))
    with (finish windows s'); [by eapply returns_of_loop|].
  unfold finish, platform_string. rewrite Hgq, Hbs. cbn [orb].
  case_bool_decide as Ht; cbn [negb].
  - by subst.
  - by rewrite ReplaceAll_joined.
Qed.

Lemma BindArgVars_unquotes_braces_witness :
  BindArgVars_returns false None "awk '\{print $1\}' \{x" "awk '{print $1\}' {x".
Proof.
  change (BindArgVars_returns false None
            (joined "\{" ["awk '"; "print $1\}' "] "x")
            (platform_string false (joined "{" ["awk '"; "print $1\}' "] "x"))).
  apply BindArgVars_unquotes_braces.
  - repeat apply Forall_cons_2; try apply Forall_nil_2; by_decide.
  - by_decide.
Defined.

(** X4. A value that ends with a backslash quotes the brace that follows
    the token: the backslash is dropped from the output and the token that
    the brace would open is not replaced. *)
Theorem BindArgVars_value_backslash_quotes
    (windows : bool) (vals : ValMap) (pre n v rest : string) :
  plain pre → resolved vals n →
  map_get vals (token n) = Some (v +:+ "\") →
  lb ∉ of_string v → lb ∉ of_string rest →
  BindArgVars_returns windows vals (pre +:+ token n +:+ "{" +:+ rest)
    (platform_string windows (pre +:+ v +:+ "{" +:+ rest)).
Proof.
  intros [Hpre Hprel] (Hn & Hprompt & _) Hv Hvl Hrest.
  set (P := of_string pre) in *. set (N := of_string n) in *.
  set (V := of_string v) in *. set (R := of_string rest) in *.
  assert (Harg : of_string (pre +:+ token n +:+ "{" +:+ rest)
                 = P ++ lb :: N ++ rb :: lb :: R).
  { by rewrite of_string_template, of_string_app. }
  assert (Hkey : to_string (lb :: N ++ [rb]) = token n)
    by (unfold N; by rewrite <- of_string_token, to_of_string).
  assert (Hl : ∃ s', loop 3 vals (Scan (P ++ lb :: N ++ rb :: lb :: R)
                                    (len (P ++ lb :: N ++ rb :: lb :: R)) 0 false)
                     = Some s'
                     ∧ bs s' = (P ++ V) ++ backslash :: lb :: R
                     ∧ gotquote s' = true).
  { rewrite loop_S. cbn [ci sz].
    replace (0 <? len (P ++ lb :: N ++ rb :: lb :: R)) with true.
    2:{ symmetry. apply Z.ltb_lt. rewrite len_app, len_cons.
        pose proof (len_nonneg P). pose proof (len_nonneg (N ++ rb :: lb :: R)). lia. }
    pose proof (body_at_token vals [] P N (lb :: R)
                  (len (P ++ lb :: N ++ rb :: lb :: R)) false Hpre Hprel Hn) as Hb.
    cbn [app] in Hb. change (len []) with 0 in Hb.
    rewrite Hb, Hkey, Hprompt, Hv. cbn zeta. clear Hb.
    replace (len (P ++ lb :: N ++ rb :: lb :: R) - (len N + (len P + 1) + 1))
      with (len (lb :: R)).
    2:{ unfold len. rewrite !length_app. cbn [length].
        rewrite !length_app. cbn [length]. lia. }
    rewrite make_copy_exact, of_string_app.
    change (of_string "\") with [backslash]. fold V.
    replace ((P ++ V ++ [backslash]) ++ lb :: R)
      with (((P ++ V ++ [backslash]) ++ []) ++ lb :: R) by (by rewrite app_nil_r).
    rewrite loop_S. cbn [ci sz].
    replace (len (P ++ V ++ [backslash])
             <? len (((P ++ V ++ [backslash]) ++ []) ++ lb :: R)) with true.
    2:{ symmetry. apply Z.ltb_lt. rewrite app_nil_r, (len_app _ (lb :: R)), len_cons.
        pose proof (len_nonneg R). lia. }
    rewrite body_at_quoted;
      [|apply not_elem_of_nil|rewrite app_nil_r, !app_assoc; apply last_snoc].
    destruct (loop_stops vals (((P ++ V ++ [backslash]) ++ []) ++ [lb]) rest true)
      as (s' & Hl & Hbs & Hgq); [by rewrite last_snoc|by left|].
    fold R in Hl, Hbs.
    replace ((((P ++ V ++ [backslash]) ++ []) ++ [lb]) ++ R)
      with (((P ++ V ++ [backslash]) ++ []) ++ lb :: R) in Hl, Hbs
      by (by rewrite <- !app_assoc).
    exists s'. rewrite Hl. split; [done|]. split; [|done].
    rewrite Hbs, app_nil_r. by rewrite <- !app_assoc. }
  destruct Hl as (s' & Hl & Hbs & Hgq). rewrite <- Harg in Hl.
  replace (platform_string windows (pre +:+ v +:+ "{" +:+ rest))
    with (finish windows s'); [by eapply returns_of_loop|].
  unfold finish, platform_string. rewrite Hgq, Hbs.
  rewrite ReplaceAll_quoted.
  2:{ rewrite elem_of_app. by intros [?|?]. }
  rewrite (ReplaceAll_absent R _ _ lb); [|by_decide|done].
  rewrite !of_string_app. fold P V R. change (of_string "{") with [lb].
  by rewrite <- !app_assoc.
Qed.

Lemma BindArgVars_value_backslash_quotes_witness :
  BindArgVars_returns false
    (Some {[ "{FileDirPath}" := "C:\proj\"; "{FileName}" := "main.go" ]})
    "type {FileDirPath}{FileName}" "type C:\proj{FileName}".
Proof.
  apply (BindArgVars_value_backslash_quotes false _
           "type " "FileDirPath" "C:\proj" "FileName}").
  - split; by_decide.
  - split; [by_decide|]. split; [reflexivity|]. by vm_compute; eauto.
  - reflexivity.
  - by_decide.
  - by_decide.
Defined.

End Bind_extras.

(** ** SetArgVarVals, again *)

Section SetArgVarVals_more.

Import Bind.

Context `{PathLib}.

(** What an assigned token is bound to depends on the arguments of the
    call only, not on the map before. *)
Lemma SetArgVarVals_assigned_value avp fpath projpath tv k :
  k ∈ FileVars ++ EditorVars →
  map_get (SetArgVarVals avp fpath projpath tv) k
  = map_get (SetArgVarVals None fpath projpath tv) k.
Proof.
  intros Hk. cbn in Hk.
  unfold SetArgVarVals. destruct tv; cbn [map_get];
    repeat (apply elem_of_cons in Hk as [->|Hk]; [by simplify_map_eq|]);
    by apply elem_of_nil in Hk.
Qed.

Lemma ValMap_ext (a b : ValMap) :
  is_Some a → is_Some b → (∀ k, map_get a k = map_get b k) → a = b.
Proof.
  intros [m ->] [m' ->] Hk. f_equal. apply map_eq. exact Hk.
Qed.

(** A token alone, bound to a value: the loop ends after one round with
    the value as buffer. *)
Lemma loop_token_alone vals n v :
  rb ∉ of_string n → strings_HasPrefix (token n) "{Prompt" = false →
  map_get vals (token n) = Some v →
  ∃ s', loop 2 vals (Scan (of_string (token n)) (len (of_string (token n))) 0 false)
        = Some s'
        ∧ bs s' = of_string v ∧ gotquote s' = false.
Proof.
  intros Hn Hprompt Hv. rewrite of_string_token.
  set (N := of_string n) in *.
  assert (Hkey : to_string (lb :: N ++ [rb]) = token n)
    by (unfold N; by rewrite <- of_string_token, to_of_string).
  rewrite loop_S. cbn [ci sz].
  replace (0 <? len (lb :: N ++ [rb])) with true.
  2:{ symmetry. apply Z.ltb_lt. rewrite len_cons.
      pose proof (len_nonneg (N ++ [rb])). lia. }
  pose proof (body_at_token vals [] [] N [] (len (lb :: N ++ [rb])) false) as Hb.
  cbn [app] in Hb. change (len []) with 0 in Hb.
  rewrite Hb, Hkey, Hprompt, Hv by (done || apply not_elem_of_nil). cbn zeta.
  replace (len (lb :: N ++ [rb]) - (len N + (0 + 1) + 1)) with (len (@nil ascii)).
  2:{ unfold len. cbn [length]. rewrite length_app. cbn [length]. lia. }
  rewrite make_copy_exact, app_nil_r. cbn [loop ci sz].
  rewrite Z.ltb_irrefl. eauto.
Qed.

End SetArgVarVals_more.

Section SetArgVarVals_extras.

Import Bind Samples UnixPaths.

(** X5. The file, project and editor tokens never carry over from an
    earlier call: two calls in a row leave the map that the second call
    alone would leave. In particular a call repeated with the same
    arguments changes nothing. *)
Theorem SetArgVarVals_last_call_wins `{PathLib}
    (avp : ValMap) (f1 p1 f2 p2 : string) (tv1 tv2 : option TextView) :
  SetArgVarVals (SetArgVarVals avp f1 p1 tv1) f2 p2 tv2
  = SetArgVarVals avp f2 p2 tv2.
Proof.
  apply ValMap_ext; [apply SetArgVarVals_not_nil..|].
  intros k. destruct (decide (k ∈ FileVars ++ EditorVars)) as [Hk|Hk].
  - rewrite (SetArgVarVals_assigned_value (SetArgVarVals avp f1 p1 tv1)) by done.
    symmetry. by apply SetArgVarVals_assigned_value.
  - by rewrite !SetArgVarVals_other.
Qed.

(** X6. After [SetArgVarVals] each of the nineteen file, project and
    editor tokens, given to [BindArgVars] alone, is replaced by the value
    that the map has for it; the loop ends. *)
Theorem SetArgVarVals_then_BindArgVars `{PathLib}
    (windows : bool) (avp : ValMap) (fpath projpath : string)
    (tv : option TextView) :
  Forall (λ k, ∃ v,
            map_get (SetArgVarVals avp fpath projpath tv) k = Some v
            ∧ BindArgVars_returns windows (SetArgVarVals avp fpath projpath tv) k
                (platform_string windows v))
         (FileVars ++ EditorVars).
Proof.
  pose proof (SetArgVarVals_assigned avp fpath projpath tv) as Hall.
  set (av := SetArgVarVals avp fpath projpath tv) in *.
  assert (Hone : ∀ n, rb ∉ of_string n →
            strings_HasPrefix (token n) "{Prompt" = false →
            is_Some (map_get av (token n)) →
            ∃ v, map_get av (token n) = Some v
                 ∧ BindArgVars_returns windows av (token n) (platform_string windows v)).
  { intros n Hn Hp [v Hv]. exists v. split; [done|].
    destruct (loop_token_alone av n v Hn Hp Hv) as (s' & Hl & Hbs & Hgq).
    replace (platform_string windows v) with (finish windows s');
      [by eapply returns_of_loop|].
    unfold finish, platform_string. by rewrite Hgq, Hbs. }
  cbn [FileVars EditorVars app] in *.
  repeat (apply Forall_cons in Hall as [Hk Hall];
          apply Forall_cons; split;
          [ match goal with |- ∃ _, map_get _ ?k = _ ∧ _ =>
              match k with
              | String _ ?rest =>
                  let n := eval vm_compute in
                    (to_string (removelast (of_string rest))) in
                  apply (Hone n); [by_decide | reflexivity | exact Hk]
              end
            end | clear Hk ]).
  apply Forall_nil_2.
Qed.

End SetArgVarVals_extras.

(** ** The scan is a single pass *)

Section Single_pass.

Import Bind.

Lemma slice_from_suffix (a : bytes) i j :
  0 <= i <= j → slice_from a j `suffix_of` slice_from a i.
Proof.
  intros Hij. unfold slice_from. exists (take (Z.to_nat (j - i)) (drop (Z.to_nat i) a)).
  rewrite <- (take_drop (Z.to_nat (j - i)) (drop (Z.to_nat i) a)) at 1.
  rewrite drop_drop. do 2 f_equal. lia.
Qed.

(** What a round leaves to be scanned is the end of what was to be
    scanned before it. *)
Lemma body_suffix vals s s' :
  sz s = len (bs s) → 0 <= ci s < sz s →
  body vals s = Next s' ∨ body vals s = Break s' →
  slice_from (bs s') (ci s') `suffix_of` slice_from (bs s) (ci s).
Proof.
  intros Hsz Hci. unfold body.
  change lbrace with [lb]. change rbrace with [rb].
  destruct (Index_range (slice_from (bs s) (ci s)) lb) as [->|Hsb].
  { cbn. by intros [[=]|[= <-]]. }
  rewrite len_slice_from in Hsb by lia.
  set (sb := Index (slice_from (bs s) (ci s)) [lb]) in *.
  replace (sb <? 0) with false by (symmetry; apply Z.ltb_ge; lia).
  destruct (_ && _).
  { intros [[= <-]|[=]]. cbn. apply slice_from_suffix. lia. }
  destruct (Index_range (slice_from (bs s) (ci s + sb + 1)) rb) as [->|Heb].
  { cbn. intros [[=]|[= <-]]. cbn. apply slice_from_suffix. lia. }
  rewrite len_slice_from in Heb by lia.
  set (eb := Index (slice_from (bs s) (ci s + sb + 1)) [rb]) in *.
  replace (eb <? 0) with false by (symmetry; apply Z.ltb_ge; lia).
  destruct (strings_HasPrefix _ _).
  { intros [[= <-]|[=]]. cbn. apply slice_from_suffix. lia. }
  destruct (map_get vals _) as [val|].
  - intros [[= <-]|[=]]. cbn [bs sz ci].
    rewrite slice_from_app.
    replace (sz s - (eb + (ci s + sb + 1) + 1))
      with (len (slice_from (bs s) (eb + (ci s + sb + 1) + 1)))
      by (rewrite len_slice_from; lia).
    rewrite make_copy_exact. apply slice_from_suffix. lia.
  - intros [[= <-]|[=]]. cbn. apply slice_from_suffix. lia.
Qed.

(** The scan after any number of rounds: [sz] is the length of the
    buffer, [ci] has not moved back, the bytes before the [ci] of the start
    are those of the start, and the bytes from [ci] on are the end of those
    of the start. *)
Lemma rounds_inv k vals s :
  sz s = len (bs s) → 0 <= ci s <= sz s →
  let s' := rounds k vals s in
  sz s' = len (bs s') ∧ ci s <= ci s' <= sz s'
  ∧ slice_from (bs s') (ci s') `suffix_of` slice_from (bs s) (ci s)
  ∧ slice_to (bs s') (ci s) = slice_to (bs s) (ci s).
Proof.
  revert s. induction k as [|k IH]; intros s Hsz Hci; cbn [rounds].
  { repeat split; try done; lia. }
  destruct (Z.ltb_spec (ci s) (sz s)) as [Hlt|]; [|repeat split; try done; lia].
  destruct (body vals s) as [s1|s1] eqn:Hb.
  - destruct (body_keeps_prefix vals s s1 Hsz) as (Hsz1 & Hci1 & Hp1);
      [lia|by right|].
    repeat split; try done; try lia.
    apply (body_suffix vals s s1); [done|lia|by right].
  - destruct (body_keeps_prefix vals s s1 Hsz) as (Hsz1 & Hci1 & Hp1);
      [lia|by left|].
    pose proof (body_suffix vals s s1 Hsz ltac:(lia) ltac:(by left)) as Hs1.
    destruct (IH s1 Hsz1 ltac:(lia)) as (Hsz2 & Hci2 & Hs2 & Hp2).
    cbn zeta in *. split; [done|]. split; [lia|]. split; [by etrans|].
    rewrite <- Hp1.
    rewrite <- (slice_to_slice_to (bs (rounds k vals s1)) (ci s) (ci s1)) by lia.
    rewrite Hp2. apply slice_to_slice_to. lia.
Qed.

(** Later rounds leave the bytes before [ci] as they are. *)
Lemma rounds_later k j vals s :
  sz s = len (bs s) → 0 <= ci s <= sz s →
  slice_to (bs (rounds (k + j) vals s)) (ci (rounds k vals s))
  = slice_to (bs (rounds k vals s)) (ci (rounds k vals s)).
Proof.
  revert s. induction k as [|k IH]; intros s Hsz Hci; cbn [rounds Nat.add].
  { by apply rounds_inv. }
  destruct (Z.ltb_spec (ci s) (sz s)) as [Hlt|]; [|done].
  destruct (body vals s) as [s1|s1] eqn:Hb; [done|].
  destruct (body_keeps_prefix vals s s1 Hsz) as (Hsz1 & Hci1 & _);
    [lia|by left|].
  apply IH; [done|lia].
Qed.

(** The state in which the loop ends is the state after that many
    rounds. *)
Lemma loop_rounds fuel vals s s' :
  loop fuel vals s = Some s' → rounds fuel vals s = s'.
Proof.
  revert s. induction fuel as [|n IH]; intros s; [done|].
  cbn [loop rounds]. destruct (ci s <? sz s); [|by intros [= <-]].
  destruct (body vals s); [by intros [= <-]|apply IH].
Qed.

(** The round that replaces a token, in any state of the scan: [D] is
    what lies before [ci]. *)
Lemma body_replaces vals (D : bytes) gq (pre n v post : string) :
  lb ∉ of_string pre → last (D ++ of_string pre) ≠ Some backslash →
  rb ∉ of_string n → strings_HasPrefix (token n) "{Prompt" = false →
  map_get vals (token n) = Some v →
  body vals (Scan (D ++ of_string (pre +:+ token n +:+ post))
                  (len (D ++ of_string (pre +:+ token n +:+ post))) (len D) gq)
  = Next (Scan (D ++ of_string (pre +:+ v +:+ post))
               (len (D ++ of_string (pre +:+ v +:+ post)))
               (len (D ++ of_string (pre +:+ v))) gq).
Proof.
  intros Hpre Hlast Hn Hprompt Hval.
  rewrite of_string_template, !of_string_app.
  set (P := of_string pre) in *. set (N := of_string n) in *.
  set (V := of_string v). set (Q := of_string post).
  rewrite body_at_token by done. cbn zeta.
  unfold N. rewrite <- of_string_token, to_of_string, Hprompt, Hval.
  fold N V.
  replace (len (D ++ P ++ lb :: N ++ rb :: Q) - (len N + (len (D ++ P) + 1) + 1))
    with (len Q).
  2:{ unfold len. rewrite !length_app. cbn [length].
      rewrite !length_app. cbn [length]. lia. }
  rewrite make_copy_exact. by rewrite <- !app_assoc.
Qed.

(** The loop on a template that starts with expandable tokens: after one
    round for each of them the scan is at the end of the last value, and
    goes on from there. *)
Lemma loop_expands_then vals segs post (D : bytes) gq fuel :
  last D ≠ Some backslash → Forall (expandable vals) segs →
  loop (length segs + fuel) vals
    (Scan (D ++ of_string (template segs post))
          (len (D ++ of_string (template segs post))) (len D) gq)
  = loop fuel vals
      (Scan (D ++ of_string (expansion vals segs post))
            (len (D ++ of_string (expansion vals segs post)))
            (len (D ++ of_string (expansion vals segs ""))) gq).
Proof.
  intros HD Hsegs. revert D HD.
  induction Hsegs as [|[t n] rest ([Ht Htl] & (Hn & Hprompt & [v Hv]) & Hvl) _ IH];
    intros D HD.
  - cbn. by rewrite app_nil_r.
  - cbn [fst snd] in *. rewrite Hv in Hvl. cbn [default] in Hvl.
    cbn [length Nat.add template expansion]. rewrite Hv. cbn [default].
    rewrite loop_S. cbn [ci sz].
    replace (len D <? len (D ++ of_string (t +:+ token n +:+ template rest post)))
      with true.
    2:{ symmetry. apply Z.ltb_lt. rewrite of_string_template.
        apply len_lt_app_cons. }
    rewrite (body_replaces vals D gq t n v) by (done || by apply last_app_ne).
    assert (HD' : last (D ++ of_string (t +:+ v)) ≠ Some backslash).
    { rewrite of_string_app. by repeat apply last_app_ne. }
    pose proof (IH (D ++ of_string (t +:+ v)) HD') as IH'.
    rewrite !of_string_app in IH'. rewrite !of_string_app.
    rewrite <- ?app_assoc in IH'. rewrite <- ?app_assoc. exact IH'.
Qed.

End Single_pass.

Section Single_pass_claim.

Import Bind.

(** C9. [BindArgVars] scans its buffer once, from left to right, and
    never scans a value that it has put in.

    - The round that replaces a token, in whatever state the scan is
      ([D] is what lies before [ci], scanned or put in by earlier rounds,
      and [gq] tells whether a brace was quoted): the token is replaced by
      its value [v] and [ci] is moved to the end of [v], whatever braces
      or tokens [v] holds. After any number of further rounds the buffer
      still starts with [D ++ pre ++ v], and what is left to scan is an
      end of [post]: no byte of [v] is scanned.
    - On every template and after any number of rounds, what is left to
      scan is an end of the template as it was given, and no later round
      changes a byte before [ci]. The state in which the loop ends, from
      whatever state it starts, is the state after that many rounds.
    - Hence, on a template that starts with any number of known tokens,
      the call is a scan that starts after the last value, and when
      nothing follows that the scan could stop at for ever, the result is
      the template with each token replaced by its value, once. *)
Theorem BindArgVars_single_pass (windows : bool) (vals : ValMap) :
  (∀ (D : bytes) (gq : bool) (pre n v post : string),
     lb ∉ of_string pre → last (D ++ of_string pre) ≠ Some backslash →
     rb ∉ of_string n → strings_HasPrefix (token n) "{Prompt" = false →
     map_get vals (token n) = Some v →
     let s0 := Scan (D ++ of_string (pre +:+ token n +:+ post))
                    (len (D ++ of_string (pre +:+ token n +:+ post))) (len D) gq in
     let s1 := Scan (D ++ of_string (pre +:+ v +:+ post))
                    (len (D ++ of_string (pre +:+ v +:+ post)))
                    (len (D ++ of_string (pre +:+ v))) gq in
     body vals s0 = Next s1
     ∧ ∀ k, slice_to (bs (rounds k vals s1)) (len (D ++ of_string (pre +:+ v)))
            = D ++ of_string (pre +:+ v)
            ∧ slice_from (bs (rounds k vals s1)) (ci (rounds k vals s1))
              `suffix_of` of_string post)
  ∧ (∀ (arg : string) (k : nat),
       let s := rounds k vals (start arg) in
       slice_from (bs s) (ci s) `suffix_of` of_string arg
       ∧ ∀ j, slice_to (bs (rounds (k + j) vals (start arg))) (ci s)
              = slice_to (bs s) (ci s))
  ∧ (∀ (s : scan) (fuel : nat) (s' : scan),
       loop fuel vals s = Some s' → rounds fuel vals s = s')
  ∧ (∀ (segs : list (string * string)) (post : string),
       Forall (expandable vals) segs →
       (∀ fuel,
          BindArgVars (length segs + fuel) windows vals (template segs post)
          = finish windows
              <$> loop fuel vals
                    (Scan (of_string (expansion vals segs post))
                          (len (of_string (expansion vals segs post)))
                          (len (of_string (expansion vals segs ""))) false))
       ∧ (stops post →
          BindArgVars_returns windows vals (template segs post)
            (platform_string windows (expansion vals segs post)))).
Proof.
  split; [|split; [|split]].
  - intros D gq pre n v post Hpre Hlast Hn Hprompt Hval s0 s1.
    split; [by apply body_replaces|]. intros k.
    assert (Hbs : bs s1 = (D ++ of_string (pre +:+ v)) ++ of_string post).
    { subst s1. cbn [bs]. by rewrite !of_string_app, <- !app_assoc. }
    assert (Hsz : sz s1 = len (bs s1)) by done.
    assert (Hci : 0 <= ci s1 <= sz s1).
    { rewrite Hsz, Hbs. subst s1. cbn [ci]. rewrite !len_app.
      pose proof (len_nonneg D). pose proof (len_nonneg (of_string (pre +:+ v))).
      pose proof (len_nonneg (of_string post)). lia. }
    destruct (rounds_inv k vals s1 Hsz Hci) as (_ & _ & Hsuf & Hpref).
    rewrite Hbs in Hsuf, Hpref.
    change (ci s1) with (len (D ++ of_string (pre +:+ v))) in Hsuf, Hpref.
    rewrite slice_from_app in Hsuf. rewrite slice_to_app in Hpref. done.
  - intros arg k s.
    assert (Hsz : sz (start arg) = len (bs (start arg))) by (by rewrite start_eq).
    assert (Hci : 0 <= ci (start arg) <= sz (start arg)).
    { rewrite start_eq. cbn [ci sz]. pose proof (len_nonneg (of_string arg)). lia. }
    split.
    + destruct (rounds_inv k vals (start arg) Hsz Hci) as (_ & _ & Hsuf & _).
      exact Hsuf.
    + intros j. by apply rounds_later.
  - intros s fuel s'. apply loop_rounds.
  - intros segs post Hsegs.
    assert (Heq : ∀ fuel,
              loop (length segs + fuel) vals (start (template segs post))
              = loop fuel vals
                  (Scan (of_string (expansion vals segs post))
                        (len (of_string (expansion vals segs post)))
                        (len (of_string (expansion vals segs ""))) false)).
    { intros fuel. rewrite start_eq.
      exact (loop_expands_then vals segs post [] false fuel ltac:(done) Hsegs). }
    split.
    + intros fuel. unfold BindArgVars. by rewrite Heq.
    + intros Hstop.
      destruct (loop_expands vals segs post [] ltac:(done) Hsegs Hstop)
        as (s' & Hl & Hbs & Hgq).
      cbn [app] in Hl, Hbs. change (len []) with 0 in Hl.
      replace (platform_string windows (expansion vals segs post))
        with (finish windows s'); [by eapply returns_of_loop|].
      unfold finish, platform_string. by rewrite Hgq, Hbs.
Qed.

(** The file name is bound to the text of another token, which is known
    too: the second token of the template is replaced, the text put in for
    the first is not. *)
Lemma BindArgVars_single_pass_witness :
  BindArgVars_returns false
    (Some {[ "{FileName}" := "{FilePath}"; "{FilePath}" := "/tmp/main.go" ]})
    "cat {FileName} {FilePath}" "cat {FilePath} /tmp/main.go".
Proof.
  set (V := Some {[ "{FileName}" := "{FilePath}"; "{FilePath}" := "/tmp/main.go" ]}
             : ValMap).
  destruct (BindArgVars_single_pass false V) as (_ & _ & _ & Hres).
  destruct (Hres [("cat ", "FileName"); (" ", "FilePath")] "") as [_ Hret].
  - repeat apply Forall_cons_2; try apply Forall_nil_2;
      (split; [split; by_decide | split; [|by_decide]]);
      (split; [by_decide | split; [reflexivity | by vm_compute; eauto]]).
  - apply Hret. left. by_decide.
Defined.

End Single_pass_claim.

(** ** The events of a command chain *)

Section Log_facts.

Context `{PathLib} (env : Env).

Lemma runs_app l1 l2 : runs (l1 ++ l2) = runs l1 ++ runs l2.
Proof. apply omap_app. Qed.

Lemma saves_app l1 l2 : saves (l1 ++ l2) = saves l1 ++ saves l2.
Proof. apply omap_app. Qed.

Lemma FindOrMakeCmdBuf_log cmdNm clear w :
  log (FindOrMakeCmdBuf cmdNm clear w).1.1 = log w.
Proof.
  unfold FindOrMakeCmdBuf.
  destruct (CmdBufs (ge w)); cbn; repeat case_match; done.
Qed.

Lemma FindOrMakeMainTab_log label sel w :
  log (FindOrMakeMainTab label sel w).1
  = log w ++ (if sel then [SelectTab label] else []).
Proof.
  unfold FindOrMakeMainTab.
  destruct (TabByName _ _), sel; cbn; by rewrite ?app_nil_r.
Qed.

Lemma FindOrMakeCmdTab_log cmdNm sel clearBuf w :
  log (FindOrMakeCmdTab cmdNm sel clearBuf w).1.1.1
  = log w ++ (if sel then [SelectTab cmdNm] else []).
Proof.
  unfold FindOrMakeCmdTab.
  pose proof (FindOrMakeCmdBuf_log cmdNm clearBuf w) as H1.
  destruct (FindOrMakeCmdBuf cmdNm clearBuf w) as [[w1 buf] nw]. cbn [fst] in H1.
  unfold FindOrMakeMainTabTextView.
  pose proof (FindOrMakeMainTab_log cmdNm sel w1) as H2.
  destruct (FindOrMakeMainTab cmdNm sel w1) as [w2 idx]. cbn [fst] in *.
  change (log (SetBuf idx buf w2)) with (log w2). by rewrite H2, H1.
Qed.

(** The events of one command: a name of the catalog selects its tab, if
    asked to, and runs; another name is reported. *)
Lemma ExecCmdName_log cmdNm sel clearBuf w :
  ∃ b, log (ExecCmdName env cmdNm sel clearBuf w)
       = log w ++ (if bool_decide (cmdNm ∈ AvailCmds env)
                   then (if sel then [SelectTab cmdNm] else []) ++ [CmdRun cmdNm b]
                   else [PromptDialog "Command not found"]).
Proof.
  unfold ExecCmdName, CmdByName. case_bool_decide; cbn [negb].
  - pose proof (FindOrMakeCmdTab_log cmdNm sel clearBuf (Gide_SetArgVarVals w)) as H1.
    destruct (FindOrMakeCmdTab _ _ _ _) as [[[w2 cbuf] idx] nw]. cbn [fst] in H1.
    exists cbuf. cbn. rewrite H1. cbn. by rewrite <- app_assoc.
  - by exists 1%positive.
Qed.

Lemma ExecCmdNameFileNode_log fn cmdNm sel clearBuf w :
  ∃ b, log (ExecCmdNameFileNode env fn cmdNm sel clearBuf w)
       = log w ++ (if bool_decide (cmdNm ∈ AvailCmds env)
                   then (if sel then [SelectTab cmdNm] else []) ++ [CmdRun cmdNm b]
                   else [PromptDialog "Command not found"]).
Proof.
  unfold ExecCmdNameFileNode, CmdByName. case_bool_decide; cbn [negb].
  - match goal with |- context [FindOrMakeCmdTab _ _ _ ?w'] =>
      pose proof (FindOrMakeCmdTab_log cmdNm sel clearBuf w') as H1;
      destruct (FindOrMakeCmdTab cmdNm sel clearBuf w') as [[[w2 cbuf] idx] nw]
    end.
    cbn [fst] in H1. exists cbuf. cbn. rewrite H1. cbn. by rewrite <- app_assoc.
  - by exists 1%positive.
Qed.

Lemma ExecCmds_runs cmdNms sel clearBuf w :
  runs (log (ExecCmds env cmdNms sel clearBuf w))
  = runs (log w) ++ filter (λ nm, nm ∈ AvailCmds env) cmdNms
  ∧ saves (log (ExecCmds env cmdNms sel clearBuf w)) = saves (log w).
Proof.
  revert w. induction cmdNms as [|nm rest IH]; intros w; cbn [ExecCmds].
  - by rewrite filter_nil, app_nil_r.
  - destruct (IH (ExecCmdName env nm sel clearBuf w)) as [IH1 IH2].
    rewrite IH1, IH2.
    destruct (ExecCmdName_log nm sel clearBuf w) as [b ->].
    rewrite runs_app, saves_app, filter_cons.
    case_bool_decide; case_decide; try done; destruct sel; cbn;
      by rewrite ?app_nil_r, <- ?app_assoc.
Qed.

Lemma ExecCmdsFileNode_runs fn cmdNms sel clearBuf w :
  runs (log (ExecCmdsFileNode env fn cmdNms sel clearBuf w))
  = runs (log w) ++ filter (λ nm, nm ∈ AvailCmds env) cmdNms
  ∧ saves (log (ExecCmdsFileNode env fn cmdNms sel clearBuf w)) = saves (log w).
Proof.
  revert w. induction cmdNms as [|nm rest IH]; intros w; cbn [ExecCmdsFileNode].
  - by rewrite filter_nil, app_nil_r.
  - destruct (IH (ExecCmdNameFileNode env fn nm sel clearBuf w)) as [IH1 IH2].
    rewrite IH1, IH2.
    destruct (ExecCmdNameFileNode_log fn nm sel clearBuf w) as [b ->].
    rewrite runs_app, saves_app, filter_cons.
    case_bool_decide; case_decide; try done; destruct sel; cbn;
      by rewrite ?app_nil_r, <- ?app_assoc.
Qed.

End Log_facts.

(** ** Command tabs *)

Section Tab_facts.

Context `{PathLib} (env : Env).

Lemma TabByName_Some label tabs idx :
  TabByName label tabs = Some idx ↔
  (∃ t, tabs !! idx = Some t ∧ t.1 = label)
  ∧ ∀ j t, tabs !! j = Some t → (j < idx)%nat → t.1 ≠ label.
Proof.
  unfold TabByName. split.
  - intros Hf. apply fmap_Some in Hf as [[i t] [Hf ->]].
    apply list_find_Some in Hf as (Ht & Hl & Hlt). cbn. split; [eauto|].
    intros j t' Hj Hji. by apply (Hlt j).
  - intros [(t & Ht & Hl) Hlt]. apply fmap_Some. exists (idx, t). split; [|done].
    apply list_find_Some. repeat split; [done..|].
    intros j y Hj Hji. by apply (Hlt j).
Qed.

Lemma TabByName_None label tabs :
  TabByName label tabs = None ↔ ∀ j t, tabs !! j = Some t → t.1 ≠ label.
Proof.
  unfold TabByName. rewrite fmap_None, list_find_None, Forall_lookup. done.
Qed.

(** The tab that [FindOrMakeMainTab] answers is the first tab under the
    label, in a list that has one more tab at its end if there was none. *)
Lemma FindOrMakeMainTab_tabs label sel w :
  let r := FindOrMakeMainTab label sel w in
  MainTabs (ge r.1)
  = MainTabs (ge w) ++ match TabByName label (MainTabs (ge w)) with
                       | Some _ => []
                       | None => [(label, None)]
                       end
  ∧ TabByName label (MainTabs (ge r.1)) = Some r.2
  ∧ CmdBufs (ge r.1) = CmdBufs (ge w) ∧ heap r.1 = heap w
  ∧ OpenNodes (ge r.1) = OpenNodes (ge w)
  ∧ ArgVarVals r.1 = ArgVarVals w ∧ settings r.1 = settings w.
Proof.
  unfold FindOrMakeMainTab.
  destruct (TabByName label (MainTabs (ge w))) as [idx|] eqn:Ht.
  - destruct sel; cbn; rewrite app_nil_r; done.
  - assert (TabByName label (MainTabs (ge w) ++ [(label, None)])
            = Some (length (MainTabs (ge w)))) as Hnew.
    { apply TabByName_Some. split.
      - exists (label, None). split; [|done].
        by rewrite lookup_app_r, Nat.sub_diag by lia.
      - intros j t Hj Hlt. rewrite lookup_app_l in Hj by done.
        by eapply TabByName_None. }
    destruct sel; cbn; done.
Qed.

(** What [FindOrMakeCmdBuf] leaves as it was. *)
Lemma FindOrMakeCmdBuf_same cmdNm clear w :
  let r := FindOrMakeCmdBuf cmdNm clear w in
  MainTabs (ge r.1.1) = MainTabs (ge w)
  ∧ OpenNodes (ge r.1.1) = OpenNodes (ge w)
  ∧ ArgVarVals r.1.1 = ArgVarVals w ∧ settings r.1.1 = settings w.
Proof.
  unfold FindOrMakeCmdBuf.
  destruct (CmdBufs (ge w)); cbn; repeat case_match; done.
Qed.

(** The table and the heap after [FindOrMakeCmdBuf]: the name is bound to
    the buffer of the answer, the other names are bound as before, and the
    buffers of the heap are those of before and, if the buffer was made,
    this one, which is new. *)
Lemma FindOrMakeCmdBuf_table cmdNm clear w :
  let r := FindOrMakeCmdBuf cmdNm clear w in
  table r.1.1 = <[cmdNm := r.1.2]> (table w)
  ∧ (r.2 = false → table w !! cmdNm = Some r.1.2 ∧ dom (heap r.1.1) = dom (heap w))
  ∧ (r.2 = true → table w !! cmdNm = None ∧ (r.1.2 ∉ dom (heap w))
                  ∧ dom (heap r.1.1) = {[r.1.2]} ∪ dom (heap w)).
Proof.
  unfold table.
  destruct (default ∅ (CmdBufs (ge w)) !! cmdNm) as [b|] eqn:Hb.
  - destruct (CmdBufs (ge w)) as [m|] eqn:Hm; cbn in Hb;
      [|by rewrite lookup_empty in Hb].
    rewrite (FindOrMakeCmdBuf_found _ _ _ m b) by done. cbn [fst snd].
    split; [|split; [|done]].
    + destruct clear; cbn; rewrite Hm; cbn; by rewrite insert_id.
    + intros _. split; [done|]. destruct clear; cbn; [|done].
      apply dom_alter_L.
  - pose proof (FindOrMakeCmdBuf_made cmdNm clear w Hb) as (Hb1 & Hnw & Hc & Hh).
    cbn zeta. rewrite Hc, Hh, Hnw. cbn [default].
    split; [done|]. split; [done|]. intros _. split; [done|].
    rewrite Hb1. split; [apply is_fresh|]. by rewrite dom_insert_L.
Qed.


Lemma TabByName_tabs_with label tabs :
  is_Some (TabByName label (tabs_with label tabs)).
Proof.
  unfold tabs_with. destruct (TabByName label tabs) as [idx|] eqn:Ht.
  - rewrite app_nil_r, Ht. eauto.
  - exists (length tabs). apply TabByName_Some. split.
    + exists (label, None). split; [|done].
      by rewrite lookup_app_r, Nat.sub_diag by lia.
    + intros j t Hj Hlt. rewrite lookup_app_l in Hj by done.
      by eapply TabByName_None.
Qed.

(** [FindOrMakeCmdTab] in terms of [FindOrMakeCmdBuf]: the buffer, the
    table and the heap are those of [FindOrMakeCmdBuf]; the tab is the
    first one under the name of the command, and it shows the buffer. *)
Lemma FindOrMakeCmdTab_spec cmdNm sel clearBuf w :
  let r := FindOrMakeCmdTab cmdNm sel clearBuf w in
  let rb := FindOrMakeCmdBuf cmdNm clearBuf w in
  r.1.1.2 = rb.1.2 ∧ r.2 = rb.2
  ∧ CmdBufs (ge r.1.1.1) = CmdBufs (ge rb.1.1) ∧ heap r.1.1.1 = heap rb.1.1
  ∧ TabByName cmdNm (tabs_with cmdNm (MainTabs (ge w))) = Some r.1.2
  ∧ MainTabs (ge r.1.1.1)
    = <[r.1.2 := (cmdNm, Some r.1.1.2)]> (tabs_with cmdNm (MainTabs (ge w)))
  ∧ OpenNodes (ge r.1.1.1) = OpenNodes (ge w)
  ∧ ArgVarVals r.1.1.1 = ArgVarVals w ∧ settings r.1.1.1 = settings w.
Proof.
  unfold FindOrMakeCmdTab.
  pose proof (FindOrMakeCmdBuf_same cmdNm clearBuf w) as (Hb1 & Hb2 & Hb3 & Hb4).
  destruct (FindOrMakeCmdBuf cmdNm clearBuf w) as [[w1 buf] nw]. cbn [fst snd] in *.
  unfold FindOrMakeMainTabTextView.
  pose proof (FindOrMakeMainTab_tabs cmdNm sel w1)
    as (Ht1 & Ht2 & Ht3 & Ht4 & Ht5 & Ht6 & Ht7).
  destruct (FindOrMakeMainTab cmdNm sel w1) as [w2 idx]. cbn [fst snd] in *.
  rewrite Hb1 in Ht1. fold (tabs_with cmdNm (MainTabs (ge w))) in Ht1.
  rewrite Ht1 in Ht2.
  apply TabByName_Some in Ht2 as Ht2'. destruct Ht2' as [(t & Ht & Hl) _].
  repeat split; try done; try congruence.
  - unfold SetBuf. cbn. rewrite Ht1, Ht. by rewrite Hl.
  - change (OpenNodes (ge (SetBuf idx buf w2))) with (OpenNodes (ge w2)). congruence.
  - change (ArgVarVals (SetBuf idx buf w2)) with (ArgVarVals w2). congruence.
  - change (settings (SetBuf idx buf w2)) with (settings w2). congruence.
Qed.

Lemma TabByName_None_labels label tabs :
  TabByName label tabs = None ↔ label ∉ tabs.*1.
Proof.
  rewrite TabByName_None, list_elem_of_fmap. split.
  - intros Hno (t & -> & Ht). apply list_elem_of_lookup in Ht as [j Hj].
    by apply (Hno j t).
  - intros Hno j t Hj Hl. apply Hno. exists t. split; [done|].
    by eapply list_elem_of_lookup_2.
Qed.

Lemma tabs_with_labels_eq label tabs :
  (tabs_with label tabs).*1
  = tabs.*1 ++ (if bool_decide (label ∈ tabs.*1) then [] else [label]).
Proof.
  unfold tabs_with. rewrite fmap_app. f_equal.
  destruct (TabByName label tabs) as [idx|] eqn:Ht.
  - rewrite bool_decide_eq_true_2; [done|].
    destruct (decide (label ∈ tabs.*1)) as [|Hno]; [done|].
    apply TabByName_None_labels in Hno. congruence.
  - rewrite bool_decide_eq_false_2; [done|]. by apply TabByName_None_labels.
Qed.

(** A tab keeps its place when it is given a buffer. *)
Lemma TabByName_insert label tabs idx b :
  TabByName label tabs = Some idx →
  TabByName label (<[idx := (label, b)]> tabs) = Some idx.
Proof.
  intros Hidx. apply TabByName_Some in Hidx as [(t & Ht & Hl) Hlt].
  apply TabByName_Some. split.
  - exists (label, b). split; [|done].
    apply list_lookup_insert_eq. by eapply lookup_lt_Some.
  - intros j t' Hj Hji. rewrite list_lookup_insert_ne in Hj by lia.
    by apply (Hlt j).
Qed.

End Tab_facts.

(** ** Steps of the engine *)

Section Step_facts.

Context `{PathLib} (env : Env).

Lemma Grows_refl w : Grows w w.
Proof. by split; [|split]. Qed.

Lemma Grows_trans w1 w2 w3 : Grows w1 w2 → Grows w2 w3 → Grows w1 w3.
Proof.
  intros (Ht1 & Hh1 & Hl1) (Ht2 & Hh2 & Hl2).
  split; [by etrans|]. split; by etrans.
Qed.

Lemma on_table_mono w w' e : table w ⊆ table w' → on_table w e → on_table w' e.
Proof.
  intros Hsub. destruct e; cbn; try done. intros Hl. by eapply lookup_weaken.
Qed.

Lemma Step_refl w : Step w w.
Proof.
  split; [apply Grows_refl|]. split; [done|].
  exists []. by rewrite app_nil_r.
Qed.

Lemma Step_trans w1 w2 w3 : Step w1 w2 → Step w2 w3 → Step w1 w3.
Proof.
  intros (Hg1 & Hi1 & l1 & Hl1 & Hf1) (Hg2 & Hi2 & l2 & Hl2 & Hf2).
  split; [by eapply Grows_trans|]. split; [auto|].
  exists (l1 ++ l2). split; [by rewrite Hl2, Hl1, app_assoc|].
  apply Forall_app. split; [|done].
  eapply Forall_impl; [exact Hf1|]. intros e. apply on_table_mono, Hg2.
Qed.

(** An update that touches neither the table, the heap, the tabs nor the
    events. *)
Lemma Step_same w w' :
  CmdBufs (ge w') = CmdBufs (ge w) → heap w' = heap w →
  MainTabs (ge w') = MainTabs (ge w) → log w' = log w →
  Step w w'.
Proof.
  intros Hc Hh Ht Hl.
  unfold Step, Grows, Engine_inv, CmdBufs_wf, table.
  rewrite Hc, Hh, Ht, Hl. split; [done|]. split; [done|].
  exists []. by rewrite app_nil_r.
Qed.

Lemma emit_Step e w : on_table w e → Step w (emit e w).
Proof.
  intros He. split; [exact (Grows_refl w)|]. split; [done|].
  exists [e]. split; [done|]. by apply Forall_singleton.
Qed.

Lemma Gide_SetArgVarVals_Step w : Step w (Gide_SetArgVarVals w).
Proof. by apply Step_same. Qed.

Lemma tabs_with_labels label tabs idx b :
  TabByName label (tabs_with label tabs) = Some idx →
  (<[idx := (label, b)]> (tabs_with label tabs)).*1 = (tabs_with label tabs).*1
  ∧ tabs.*1 `prefix_of` (tabs_with label tabs).*1.
Proof.
  intros Hidx. apply TabByName_Some in Hidx as [(t & Ht & Hl) _]. split.
  - rewrite list_fmap_insert. apply list_insert_id.
    by rewrite list_lookup_fmap, Ht, <- Hl.
  - unfold tabs_with. rewrite fmap_app. by apply prefix_app_r.
Qed.

Lemma tabs_with_lookup label tabs i l b :
  tabs_with label tabs !! i = Some (l, Some b) → tabs !! i = Some (l, Some b).
Proof.
  unfold tabs_with. intros Hi.
  apply lookup_app_Some in Hi as [Hi|[Hlen Hi]]; [done|].
  destruct (TabByName label tabs); [by rewrite lookup_nil in Hi|].
  apply list_lookup_singleton_Some in Hi as [_ Hi]. done.
Qed.

Lemma NoDup_tabs_with label tabs :
  NoDup tabs.*1 → NoDup (tabs_with label tabs).*1.
Proof.
  intros Hnd. rewrite tabs_with_labels_eq. case_bool_decide as Hin.
  - by rewrite app_nil_r.
  - apply NoDup_app. split; [done|]. split; [|apply NoDup_singleton].
    intros x Hx ->%list_elem_of_singleton. done.
Qed.

(** The tabs that show the buffer of their command still do, when the
    first tab under the name of a command is given the buffer that the
    table has for it. *)
Lemma tabs_clause_insert (tabs : list (string * option loc))
    (tbl : gmap string loc) cmdNm buf idx :
  NoDup tabs.*1 → TabByName cmdNm tabs = Some idx →
  (∀ i l b b', tabs !! i = Some (l, Some b) → tbl !! l = Some b' → b = b') →
  ∀ i l b b', <[idx := (cmdNm, Some buf)]> tabs !! i = Some (l, Some b) →
              <[cmdNm := buf]> tbl !! l = Some b' → b = b'.
Proof.
  intros Hnd Hidx Hold i l b b' Hi Hl.
  apply TabByName_Some in Hidx as [(t & Ht & Htl) _].
  apply list_lookup_insert_Some in Hi as [(Hii & Heq & _)|[Hne Hi]].
  - injection Heq as <- <-. rewrite lookup_insert_eq in Hl. congruence.
  - destruct (decide (l = cmdNm)) as [->|Hln].
    + destruct Hne. apply (NoDup_lookup tabs.*1 idx i cmdNm Hnd).
      * by rewrite list_lookup_fmap, Ht, <- Htl.
      * by rewrite list_lookup_fmap, Hi.
    + rewrite lookup_insert_ne in Hl by done. by apply (Hold i l).
Qed.

(** [FindOrMakeCmdTab] is a step, and the table has the buffer of the
    answer for the command. *)
Lemma FindOrMakeCmdTab_Step cmdNm sel clearBuf w :
  let r := FindOrMakeCmdTab cmdNm sel clearBuf w in
  Step w r.1.1.1 ∧ table r.1.1.1 !! cmdNm = Some r.1.1.2.
Proof.
  intros r.
  pose proof (FindOrMakeCmdTab_spec cmdNm sel clearBuf w)
    as (Hbuf & Hnw & Hc & Hh & Hidx & Htabs & _).
  pose proof (FindOrMakeCmdBuf_table cmdNm clearBuf w) as (Htab & Hfound & Hmade).
  pose proof (FindOrMakeCmdTab_log cmdNm sel clearBuf w) as Hlog.
  cbn zeta in *. fold r in Hbuf, Hnw, Hc, Hh, Hidx, Htabs, Hlog.
  set (rb := FindOrMakeCmdBuf cmdNm clearBuf w) in *.
  rewrite <- Hbuf in Htab, Hfound, Hmade. clearbody r rb.
  destruct r as [[[w' buf] idx] nw]. destruct rb as [[w1 buf1] nw1].
  cbn [fst snd] in *. subst buf1 nw1.
  assert (Htab' : table w' = <[cmdNm := buf]> (table w))
    by (unfold table in *; by rewrite Hc).
  destruct (tabs_with_labels cmdNm (MainTabs (ge w)) idx (Some buf) Hidx)
    as [Hlab Hpre].
  assert (Hlog' : ∃ l, log w' = log w ++ l ∧ Forall (on_table w') l).
  { exists (if sel then [SelectTab cmdNm] else []). split; [done|].
    destruct sel; [by apply Forall_singleton|done]. }
  assert (Hhere : table w' !! cmdNm = Some buf)
    by (by rewrite Htab', lookup_insert_eq).
  assert (Htabs' : Engine_inv w →
            NoDup (MainTabs (ge w')).*1
            ∧ ∀ i l b b', MainTabs (ge w') !! i = Some (l, Some b) →
                          table w' !! l = Some b' → b = b').
  { intros (_ & _ & Hnd & Htb). rewrite Htabs, Hlab, Htab'.
    split; [by apply NoDup_tabs_with|].
    apply tabs_clause_insert; [by apply NoDup_tabs_with|done|].
    intros i l b b' Hi. apply tabs_with_lookup in Hi. by apply (Htb i). }
  split; [|done]. destruct nw.
  - (* the buffer was made *)
    clear Hfound. destruct (Hmade eq_refl) as (Hno & Hnew & Hd). clear Hmade.
    assert (Hsub : table w ⊆ table w')
      by (rewrite Htab'; by apply insert_subseteq).
    split; [|split; [|done]].
    { split; [done|]. split; [rewrite Hh, Hd; apply union_subseteq_r|].
      by rewrite Htabs, Hlab. }
    intros Hi. pose proof (Htabs' Hi) as Ht'. destruct Hi as (Hwf & Hinj & _).
    assert (Hold : ∀ nm, table w !! nm ≠ Some buf).
    { intros nm Hl. apply Hnew, elem_of_dom. by apply (Hwf nm). }
    split; [|split; [|exact Ht']].
    + intros nm b. fold (table w'). rewrite Hh, Htab'. intros Hl.
      apply elem_of_dom. rewrite Hd.
      apply lookup_insert_Some in Hl as [[_ Hb]|[_ Hl]];
        [subst b; apply elem_of_union_l; by apply elem_of_singleton|].
      apply elem_of_union_r, elem_of_dom. by apply (Hwf nm).
    + intros n1 n2 b. rewrite Htab'. intros Hl1 Hl2.
      apply lookup_insert_Some in Hl1 as [[Hn1 Hb1]|[Hn1 Hl1]];
        apply lookup_insert_Some in Hl2 as [[Hn2 Hb2]|[Hn2 Hl2]].
      * congruence.
      * subst b. by destruct (Hold n2).
      * subst b. by destruct (Hold n1).
      * by apply (Hinj n1 n2 b).
  - (* the buffer was there *)
    clear Hmade. destruct (Hfound eq_refl) as (Hyes & Hd). clear Hfound.
    rewrite insert_id in Htab' by done.
    split; [|split; [|done]].
    { split; [by rewrite Htab'|]. split; [by rewrite Hh, Hd|].
      by rewrite Htabs, Hlab. }
    intros Hi. pose proof (Htabs' Hi) as Ht'. destruct Hi as (Hwf & Hinj & _).
    split; [|split; [|exact Ht']].
    + intros nm b. fold (table w'). rewrite Hh, Htab'. intros Hl.
      apply elem_of_dom. rewrite Hd. apply elem_of_dom. by apply (Hwf nm).
    + rewrite Htab'. apply Hinj.
Qed.

Lemma CmdByName_Step cmdNm w : Step w (CmdByName env cmdNm w).1.
Proof.
  unfold CmdByName. case_bool_decide; cbn [fst]; [apply Step_refl|].
  by apply emit_Step.
Qed.

(** One command is a step; the command, if it is run, is run on the
    buffer that the table has for it. *)
Lemma ExecCmdName_Step cmdNm sel clearBuf w :
  Step w (ExecCmdName env cmdNm sel clearBuf w).
Proof.
  unfold ExecCmdName, CmdByName. case_bool_decide; cbn [negb].
  - pose proof (FindOrMakeCmdTab_Step cmdNm sel clearBuf (Gide_SetArgVarVals w))
      as [Hs Ht].
    destruct (FindOrMakeCmdTab _ _ _ _) as [[[w2 cbuf] idx] nw].
    cbn [fst snd] in Hs, Ht.
    eapply Step_trans; [apply Gide_SetArgVarVals_Step|].
    eapply Step_trans; [exact Hs|]. by apply emit_Step.
  - by apply emit_Step.
Qed.

Lemma ExecCmdNameFileNode_Step fn cmdNm sel clearBuf w :
  Step w (ExecCmdNameFileNode env fn cmdNm sel clearBuf w).
Proof.
  unfold ExecCmdNameFileNode, CmdByName. case_bool_decide; cbn [negb].
  - match goal with |- context [FindOrMakeCmdTab _ _ _ ?w'] =>
      assert (Step w w') as H1 by (by apply Step_same);
      pose proof (FindOrMakeCmdTab_Step cmdNm sel clearBuf w') as [Hs Ht];
      destruct (FindOrMakeCmdTab cmdNm sel clearBuf w') as [[[w2 cbuf] idx] nw]
    end.
    cbn [fst snd] in Hs, Ht.
    eapply Step_trans; [exact H1|].
    eapply Step_trans; [exact Hs|]. by apply emit_Step.
  - by apply emit_Step.
Qed.

Lemma ExecCmds_Step cmdNms sel clearBuf w :
  Step w (ExecCmds env cmdNms sel clearBuf w).
Proof.
  revert w. induction cmdNms as [|nm rest IH]; intros w; cbn [ExecCmds].
  - apply Step_refl.
  - eapply Step_trans; [apply ExecCmdName_Step|apply IH].
Qed.

Lemma ExecCmdsFileNode_Step fn cmdNms sel clearBuf w :
  Step w (ExecCmdsFileNode env fn cmdNms sel clearBuf w).
Proof.
  revert w. induction cmdNms as [|nm rest IH]; intros w; cbn [ExecCmdsFileNode].
  - apply Step_refl.
  - eapply Step_trans; [apply ExecCmdNameFileNode_Step|apply IH].
Qed.

Lemma RunPostCmdsFileNode_Step fn w : Step w (RunPostCmdsFileNode env fn w).1.
Proof.
  unfold RunPostCmdsFileNode. destruct (PostSaveCmds env (Sup fn)) as [|c cs].
  - apply Step_refl.
  - cbn [fst]. eapply Step_trans; [apply ExecCmdsFileNode_Step|].
    by apply emit_Step.
Qed.

Lemma SaveAllOpenNodes_from_Step i onds w :
  Step w (SaveAllOpenNodes_from env i onds w).
Proof.
  revert i w. induction onds as [|ond rest IH]; intros i w;
    cbn [SaveAllOpenNodes_from].
  - apply Step_refl.
  - eapply Step_trans; [|apply IH]. destruct (IsChanged ond); [|apply Step_refl].
    eapply Step_trans; [|apply RunPostCmdsFileNode_Step].
    eapply Step_trans; [|by apply emit_Step]. by apply Step_same.
Qed.

Lemma SaveAllOpenNodes_Step w : Step w (SaveAllOpenNodes env w).
Proof. apply SaveAllOpenNodes_from_Step. Qed.

Lemma SaveAllCheck_Step u cancelOpt fun_ w :
  (∀ f w1, fun_ = Some f → Step w1 (f w1)) →
  Step w (SaveAllCheck env u cancelOpt fun_ w).1.
Proof.
  intros Hf. unfold SaveAllCheck.
  assert (Hfun : ∀ w1, Step w1 match fun_ with Some f => f w1 | None => w1 end).
  { intros w1. destruct fun_ as [f|]; [by apply Hf|apply Step_refl]. }
  destruct (_ =? 0); cbn [fst]; [apply Hfun|].
  match goal with |- context [choice u (log ?w')] =>
    apply (Step_trans _ w'); [by apply emit_Step|]
  end.
  destruct (negb _); [|apply Step_refl].
  eapply Step_trans; [|apply Hfun].
  destruct (_ =? 0); [apply SaveAllOpenNodes_Step|apply Step_refl].
Qed.

Lemma SaveProjAs_Step u filename saveAllFiles w :
  Step w (SaveProjAs env u filename saveAllFiles w).1.
Proof.
  unfold SaveProjAs.
  match goal with |- context [emit ?e ?w'] =>
    assert (Step w (emit e w')) as H1
      by (eapply Step_trans; [|by apply emit_Step]; by apply Step_same)
  end.
  destruct saveAllFiles; [|exact H1].
  eapply Step_trans; [exact H1|]. by apply SaveAllCheck_Step.
Qed.

Lemma SaveProjIfExists_Step u saveAllFiles w :
  Step w (SaveProjIfExists env u saveAllFiles w).1.
Proof.
  unfold SaveProjIfExists. case_bool_decide; [apply Step_refl|].
  destruct (negb _); cbn [fst]; [apply Step_refl|apply SaveProjAs_Step].
Qed.

Lemma FindOrMakeMainTab_Step label sel w :
  Step w (FindOrMakeMainTab label sel w).1.
Proof.
  pose proof (FindOrMakeMainTab_tabs label sel w) as (Ht & Hi & Hc & Hh & _).
  pose proof (FindOrMakeMainTab_log label sel w) as Hl.
  cbn zeta in *. destruct (FindOrMakeMainTab label sel w) as [w' idx].
  cbn [fst snd] in *. fold (tabs_with label (MainTabs (ge w))) in Ht.
  assert (Htab : table w' = table w) by (unfold table; by rewrite Hc).
  split; [|split].
  - split; [by rewrite Htab|]. split; [by rewrite Hh|].
    rewrite Ht. unfold tabs_with. rewrite fmap_app. by apply prefix_app_r.
  - intros (Hwf & Hinj & Hnd & Htb). split; [|split; [|split]].
    + intros nm b. fold (table w'). rewrite Hh, Htab. apply Hwf.
    + rewrite Htab. apply Hinj.
    + rewrite Ht. by apply NoDup_tabs_with.
    + intros i l b b'. rewrite Ht, Htab. intros Hi'.
      apply tabs_with_lookup in Hi'. by apply (Htb i).
  - exists (if sel then [SelectTab label] else []). split; [done|].
    destruct sel; [by apply Forall_singleton|done].
Qed.

Lemma CommitUpdtLog_Step u cmdnm w : Step w (CommitUpdtLog env u cmdnm w).
Proof.
  unfold CommitUpdtLog, FindOrMakeMainTabTextView.
  pose proof (FindOrMakeMainTab_Step cmdnm false w) as H1.
  destruct (FindOrMakeMainTab cmdnm false w) as [w1 idx]. cbn [fst] in H1.
  destruct (MainTabs (ge w1) !! idx) as [[l [b|]]|]; try exact H1.
  eapply Step_trans; [exact H1|apply SaveProjIfExists_Step].
Qed.

Lemma CommitNoChecks_Step u w : Step w (CommitNoChecks env u w).
Proof.
  unfold CommitNoChecks. case_bool_decide; [by apply emit_Step|].
  match goal with |- context [prompt_answer u (log ?w')] =>
    assert (Step w w') as H1
      by (eapply Step_trans; [apply Gide_SetArgVarVals_Step|by apply emit_Step])
  end.
  destruct (prompt_answer u _) as [msg|]; [|exact H1].
  eapply Step_trans; [|apply CommitUpdtLog_Step].
  eapply Step_trans; [|apply ExecCmdName_Step].
  eapply Step_trans; [exact H1|]. by apply Step_same.
Qed.

Lemma Build_Step u w : Step w (Build env u w).
Proof.
  unfold Build. case_bool_decide; [by apply emit_Step|].
  apply SaveAllCheck_Step. intros f w1 [= <-]. apply ExecCmds_Step.
Qed.

Lemma Run_Step w : Step w (Run env w).
Proof.
  unfold Run. case_bool_decide; [by apply emit_Step|]. apply ExecCmds_Step.
Qed.

Lemma Commit_Step u w : Step w (Commit env u w).
Proof.
  unfold Commit. case_bool_decide; [by apply emit_Step|].
  apply SaveAllCheck_Step. intros f w1 [= <-]. apply CommitNoChecks_Step.
Qed.

(** The tab of the answer shows the buffer of the answer. *)
Lemma FindOrMakeCmdTab_shows_tab cmdNm sel clearBuf w :
  let r := FindOrMakeCmdTab cmdNm sel clearBuf w in
  MainTabs (ge r.1.1.1) !! r.1.2 = Some (cmdNm, Some r.1.1.2)
  ∧ TabByName cmdNm (MainTabs (ge r.1.1.1)) = Some r.1.2
  ∧ table r.1.1.1 !! cmdNm = Some r.1.1.2.
Proof.
  intros r.
  pose proof (FindOrMakeCmdTab_spec cmdNm sel clearBuf w)
    as (_ & _ & _ & _ & Hidx & Htabs & _).
  pose proof (FindOrMakeCmdTab_Step cmdNm sel clearBuf w) as [_ Ht].
  cbn zeta in *. fold r in Hidx, Htabs, Ht. rewrite Htabs.
  split; [|split; [by apply TabByName_insert|done]].
  apply TabByName_Some in Hidx as [(t & Hlt & _) _].
  apply list_lookup_insert_eq. by eapply lookup_lt_Some.
Qed.

(** The invariant holds when there is no command buffer and no tab. *)
Lemma Engine_inv_start w :
  CmdBufs (ge w) = None → MainTabs (ge w) = [] → Engine_inv w.
Proof.
  intros Hc Ht. unfold Engine_inv, CmdBufs_wf, table. rewrite Hc, Ht. cbn.
  split; [|split; [|split; [apply NoDup_nil_2|]]];
    intros *; by rewrite ?lookup_empty, ?lookup_nil.
Qed.


End Step_facts.

(** ** What a command chain keeps *)

Section Keeps_facts.

Context `{PathLib} (env : Env).

Lemma Frames_refl w : Frames w w.
Proof. by split. Qed.

Lemma Frames_trans w1 w2 w3 : Frames w1 w2 → Frames w2 w3 → Frames w1 w3.
Proof.
  intros [Hs1 Hk1] [Hs2 Hk2]. split; [congruence|].
  intros k Hk. by rewrite Hk2, Hk1.
Qed.

Lemma Keeps_refl w : Keeps w w.
Proof. split; [apply Frames_refl|done]. Qed.

Lemma Keeps_trans w1 w2 w3 : Keeps w1 w2 → Keeps w2 w3 → Keeps w1 w3.
Proof.
  intros [Hf1 Hn1] [Hf2 Hn2]. split; [by eapply Frames_trans|congruence].
Qed.

Lemma Keeps_same w w' :
  settings w' = settings w → ArgVarVals w' = ArgVarVals w →
  OpenNodes (ge w') = OpenNodes (ge w) → Keeps w w'.
Proof. intros Hs Ha Hn. split; [|done]. split; [done|]. by rewrite Ha. Qed.

Lemma upd_ArgVarVals_Keeps fpath projpath tv w :
  Keeps w (upd_ArgVarVals (λ av, SetArgVarVals av fpath projpath tv) w).
Proof.
  split; [|done]. split; [done|]. intros k Hk. cbn.
  by apply SetArgVarVals_other.
Qed.

Lemma FindOrMakeCmdTab_Keeps cmdNm sel clearBuf w :
  Keeps w (FindOrMakeCmdTab cmdNm sel clearBuf w).1.1.1.
Proof.
  pose proof (FindOrMakeCmdTab_spec cmdNm sel clearBuf w)
    as (_ & _ & _ & _ & _ & _ & Hn & Ha & Hs).
  by apply Keeps_same.
Qed.

Lemma ExecCmdName_Keeps cmdNm sel clearBuf w :
  Keeps w (ExecCmdName env cmdNm sel clearBuf w).
Proof.
  unfold ExecCmdName, CmdByName. case_bool_decide; cbn [negb].
  - pose proof (FindOrMakeCmdTab_Keeps cmdNm sel clearBuf (Gide_SetArgVarVals w))
      as Hk.
    destruct (FindOrMakeCmdTab _ _ _ _) as [[[w2 cbuf] idx] nw]. cbn [fst] in Hk.
    eapply Keeps_trans; [apply upd_ArgVarVals_Keeps|].
    eapply Keeps_trans; [exact Hk|]. by apply Keeps_same.
  - by apply Keeps_same.
Qed.

Lemma ExecCmdNameFileNode_Keeps fn cmdNm sel clearBuf w :
  Keeps w (ExecCmdNameFileNode env fn cmdNm sel clearBuf w).
Proof.
  unfold ExecCmdNameFileNode, CmdByName. case_bool_decide; cbn [negb].
  - match goal with |- context [FindOrMakeCmdTab _ _ _ ?w'] =>
      assert (Keeps w w') as H1 by apply upd_ArgVarVals_Keeps;
      pose proof (FindOrMakeCmdTab_Keeps cmdNm sel clearBuf w') as Hk;
      destruct (FindOrMakeCmdTab cmdNm sel clearBuf w') as [[[w2 cbuf] idx] nw]
    end.
    cbn [fst] in Hk. eapply Keeps_trans; [exact H1|].
    eapply Keeps_trans; [exact Hk|]. by apply Keeps_same.
  - by apply Keeps_same.
Qed.

Lemma ExecCmds_Keeps cmdNms sel clearBuf w :
  Keeps w (ExecCmds env cmdNms sel clearBuf w).
Proof.
  revert w. induction cmdNms as [|nm rest IH]; intros w; cbn [ExecCmds].
  - apply Keeps_refl.
  - eapply Keeps_trans; [apply ExecCmdName_Keeps|apply IH].
Qed.

Lemma ExecCmdsFileNode_Keeps fn cmdNms sel clearBuf w :
  Keeps w (ExecCmdsFileNode env fn cmdNms sel clearBuf w).
Proof.
  revert w. induction cmdNms as [|nm rest IH]; intros w; cbn [ExecCmdsFileNode].
  - apply Keeps_refl.
  - eapply Keeps_trans; [apply ExecCmdNameFileNode_Keeps|apply IH].
Qed.

Lemma RunPostCmdsFileNode_Keeps fn w : Keeps w (RunPostCmdsFileNode env fn w).1.
Proof.
  unfold RunPostCmdsFileNode. destruct (PostSaveCmds env (Sup fn)) as [|c cs].
  - apply Keeps_refl.
  - cbn [fst]. eapply Keeps_trans; [apply ExecCmdsFileNode_Keeps|].
    by apply Keeps_same.
Qed.

(** The events of the commands that follow a save. *)
Lemma RunPostCmdsFileNode_runs fn w :
  runs (log (RunPostCmdsFileNode env fn w).1)
  = runs (log w) ++ in_catalog env (PostSaveCmds env (Sup fn))
  ∧ saves (log (RunPostCmdsFileNode env fn w).1) = saves (log w).
Proof.
  unfold RunPostCmdsFileNode, in_catalog.
  destruct (PostSaveCmds env (Sup fn)) as [|c cs] eqn:Hp.
  - by rewrite filter_nil, app_nil_r.
  - cbn [fst]. change (log (emit ?e ?w')) with (log w' ++ [e]).
    rewrite runs_app, saves_app.
    change (runs [BufRevert (FPath fn)]) with (@nil string).
    change (saves [BufRevert (FPath fn)]) with (@nil string).
    rewrite !app_nil_r. apply ExecCmdsFileNode_runs.
Qed.

(** [SaveAllOpenNodes], from the files [onds] that follow the files [pre]:
    the files, the saves and the commands afterwards. *)
Lemma SaveAllOpenNodes_from_nodes onds pre w :
  OpenNodes (ge w) = pre ++ onds →
  let w' := SaveAllOpenNodes_from env (length pre) onds w in
  let changed := filter (λ o, IsChanged o = true) onds in
  OpenNodes (ge w') = pre ++ (saved <$> onds)
  ∧ saves (log w') = saves (log w) ++ (FPath <$> changed)
  ∧ runs (log w')
    = runs (log w) ++ mjoin ((λ o, in_catalog env (PostSaveCmds env (Sup o))) <$> changed)
  ∧ Frames w w'.
Proof.
  revert pre w. induction onds as [|ond rest IH]; intros pre w Hn;
    cbn [SaveAllOpenNodes_from].
  - cbn. rewrite !app_nil_r. rewrite app_nil_r in Hn. repeat split; done.
  - set (w1 := if IsChanged ond then _ else w).
    assert (OpenNodes (ge w1) = (pre ++ [saved ond]) ++ rest
            ∧ saves (log w1)
              = saves (log w) ++ (if IsChanged ond then [FPath ond] else [])
            ∧ runs (log w1)
              = runs (log w) ++ (if IsChanged ond
                                 then in_catalog env (PostSaveCmds env (Sup ond))
                                 else [])
            ∧ Frames w w1) as (Hn1 & Hs1 & Hr1 & Hf1).
    { subst w1. destruct (IsChanged ond) eqn:Hch.
      - match goal with |- context [RunPostCmdsFileNode env ?fn ?w'] =>
          pose proof (RunPostCmdsFileNode_Keeps fn w') as [Hk1 Hk2];
          pose proof (RunPostCmdsFileNode_runs fn w') as [Hk3 Hk4];
          destruct (RunPostCmdsFileNode env fn w') as [w2 b]
        end.
        cbn [fst] in *. rewrite Hk2, Hk3, Hk4. cbn. rewrite Hn.
        split; [|split; [|split]].
        + rewrite insert_app_r_alt, Nat.sub_diag by lia. cbn.
          by rewrite <- app_assoc.
        + by rewrite saves_app.
        + by rewrite runs_app, app_nil_r.
        + eapply Frames_trans; [|exact Hk1]. by split.
      - rewrite !app_nil_r, Hn, <- app_assoc. cbn.
        repeat split; try done. destruct ond. cbn in Hch. by subst. }
    replace (S (length pre)) with (length (pre ++ [saved ond]))
      by (rewrite length_app; cbn; lia).
    destruct (IH _ _ Hn1) as (IH1 & IH2 & IH3 & IH4).
    cbn zeta. rewrite IH1, IH2, IH3, Hs1, Hr1, filter_cons.
    split; [by rewrite <- app_assoc|].
    split; [|split; [|by eapply Frames_trans]];
      destruct (IsChanged ond) eqn:Hch; case_decide; try done; cbn;
      by rewrite <- ?app_assoc, ?app_nil_r.
Qed.

Lemma SaveAllOpenNodes_spec w :
  let w' := SaveAllOpenNodes env w in
  let changed := filter (λ o, IsChanged o = true) (OpenNodes (ge w)) in
  OpenNodes (ge w') = saved <$> OpenNodes (ge w)
  ∧ saves (log w') = saves (log w) ++ (FPath <$> changed)
  ∧ runs (log w')
    = runs (log w) ++ mjoin ((λ o, in_catalog env (PostSaveCmds env (Sup o))) <$> changed)
  ∧ Frames w w'.
Proof. exact (SaveAllOpenNodes_from_nodes (OpenNodes (ge w)) [] w eq_refl). Qed.

Lemma NChangedFiles_saved w w' :
  OpenNodes (ge w') = saved <$> OpenNodes (ge w) → NChangedFiles w' = 0.
Proof.
  intros Hn. unfold NChangedFiles. rewrite Hn. clear Hn.
  induction (OpenNodes (ge w)) as [|o l IH]; [done|].
  rewrite fmap_cons, filter_cons. case_decide as Hd; [by cbn in Hd|exact IH].
Qed.

Lemma NChangedFiles_0 w :
  NChangedFiles w = 0 → filter (λ o, IsChanged o = true) (OpenNodes (ge w)) = [].
Proof.
  unfold NChangedFiles. intros Hn. apply length_zero_iff_nil. lia.
Qed.

(** The events that were added, told from the events at the end. *)
Lemma runs_suffix (l0 l : list Event) x :
  runs (l0 ++ l) = runs l0 ++ x → runs l = x.
Proof. rewrite runs_app. apply app_inv_head. Qed.

Lemma saves_suffix (l0 l : list Event) x :
  saves (l0 ++ l) = saves l0 ++ x → saves l = x.
Proof. rewrite saves_app. apply app_inv_head. Qed.

End Keeps_facts.

(** ** Key chords *)

Section Keys_facts.

Context `{PathLib} (env : Env).

(** The first chord of a sequence. *)
Lemma GideKeys_first u kt w :
  KeySeq1 (ge w) = "" → KeyFun env (Chord kt) "" = KeyFunNeeds2 →
  GideKeys env u kt w
  = (emit (Status (Chord kt)) (upd_ge (upd_KeySeq1 (λ _, Chord kt)) w),
     SetProcessed kt).
Proof.
  intros Hidle Hk. unfold GideKeys. rewrite Hidle, Hk.
  by rewrite !bool_decide_eq_true_2 by done.
Qed.

(** A second chord that ends the sequence without a key function. *)
Lemma GideKeys_second_abort u kt w s :
  KeySeq1 (ge w) = s → s ≠ "" →
  KeyFun env s (Chord kt) = KeyFunNil ∨ Chord kt = "Escape" →
  GideKeys env u kt w
  = (upd_ge (upd_KeySeq1 (λ _, ""))
       (emit (Status ((s +:+ " " +:+ Chord kt) +:+ " -- aborted")) w),
     SetProcessed kt).
Proof.
  intros Hs Hne Hk. unfold GideKeys. rewrite Hs.
  rewrite (bool_decide_eq_false_2 (s = "")) by done. cbn [negb].
  assert (bool_decide (KeyFun env s (Chord kt) = KeyFunNil)
          || bool_decide (Chord kt = "Escape") = true) as ->; [|done].
  destruct Hk as [Hk|Hk]; rewrite (bool_decide_eq_true_2 _ Hk);
    [done|apply orb_true_r].
Qed.

End Keys_facts.

(** ** Command chains, saves and tabs: theorems *)

Section Engine_extras.

Import Samples UnixPaths.

(** X7. A command chain runs the commands of its list that are in the
    catalog, in the order of the list and each once; a name that is not in
    the catalog is skipped, and the names after it are still run. [Run]
    runs the run commands of the preferences in this way. *)
Theorem ExecCmds_runs_catalog_commands `{PathLib} (env : Env)
    (cmdNms : list string) (sel clearBuf : bool) (w : World) :
  runs (log (ExecCmds env cmdNms sel clearBuf w))
  = runs (log w) ++ in_catalog env cmdNms
  ∧ runs (log (Run env w))
    = runs (log w) ++ in_catalog env (RunCmds (Prefs (ge w))).
Proof.
  split; [apply ExecCmds_runs|].
  unfold Run. case_bool_decide as Hr; [|apply ExecCmds_runs].
  rewrite Hr. change (log (emit ?e w)) with (log w ++ [e]).
  by rewrite runs_app.
Qed.


(** X9. When the user answers [Save All], or when no file is changed,
    [Build] first saves the changed files and then runs the build commands
    of the catalog, in their order: no file is saved once the first build
    command has run, and no file is changed at the end. *)
Theorem Build_saves_before_commands `{PathLib} (env : Env) (u : User) (w : World) :
  BuildCmds (Prefs (ge w)) ≠ [] →
  choice u (log w ++ [ChoiceDialog "There are Unsaved Files"
                        ["Save All"; "Don't Save"; "Cancel Command"]]) = 0 →
  ∃ l1 l2,
    log (Build env u w) = log w ++ l1 ++ l2
    ∧ saves l1 = FPath <$> filter (λ o, IsChanged o = true) (OpenNodes (ge w))
    ∧ saves l2 = []
    ∧ runs l2 = in_catalog env (BuildCmds (Prefs (ge w)))
    ∧ NChangedFiles (Build env u w) = 0.
Proof.
  intros Hcmds Hch. unfold Build. rewrite bool_decide_eq_false_2 by done.
  assert (Hexec : ∀ w1, Frames w w1 →
            ∃ l2, log (ExecCmds env (BuildCmds (Prefs (ge w1))) true true w1)
                  = log w1 ++ l2
                  ∧ saves l2 = []
                  ∧ runs l2 = in_catalog env (BuildCmds (Prefs (ge w)))
                  ∧ NChangedFiles (ExecCmds env (BuildCmds (Prefs (ge w1))) true true w1)
                    = NChangedFiles w1).
  { intros w1 [Hs _]. injection Hs as _ _ _ HP _. rewrite HP.
    destruct (ExecCmds_Step env (BuildCmds (Prefs (ge w))) true true w1)
      as (_ & _ & l2 & Hl2 & _).
    destruct (ExecCmds_runs env (BuildCmds (Prefs (ge w))) true true w1) as [Hr Hsv].
    destruct (ExecCmds_Keeps env (BuildCmds (Prefs (ge w))) true true w1) as [_ Hn].
    exists l2. rewrite Hl2 in Hr, Hsv. split; [done|].
    split; [apply (saves_suffix (log w1)); by rewrite app_nil_r|].
    split; [by apply (runs_suffix (log w1))|].
    unfold NChangedFiles. by rewrite Hn. }
  unfold SaveAllCheck. destruct (NChangedFiles w =? 0) eqn:Hn; cbn [fst].
  - apply Z.eqb_eq in Hn.
    destruct (Hexec w (Frames_refl w)) as (l2 & Hl & Hs & Hr & Hnc).
    exists [], l2. rewrite NChangedFiles_0 by done. by rewrite Hnc.
  - change (log (emit ?e w)) with (log w ++ [e]). rewrite Hch.
    cbn [negb Z.eqb].
    set (dlg := ChoiceDialog _ _). set (w1 := SaveAllOpenNodes env (emit dlg w)).
    destruct (SaveAllOpenNodes_spec env (emit dlg w)) as (Hno & Hsv & _ & Hf).
    fold w1 in Hno, Hsv, Hf.
    destruct (SaveAllOpenNodes_Step env (emit dlg w)) as (_ & _ & l1 & Hl1 & _).
    fold w1 in Hl1.
    destruct (Hexec w1) as (l2 & Hl & Hs & Hr & Hnc).
    { eapply Frames_trans; [|exact Hf]. by split. }
    exists (dlg :: l1), l2. rewrite Hl, Hl1, Hnc.
    change (log (emit dlg w)) with (log w ++ [dlg]). rewrite <- !app_assoc.
    split; [done|]. split; [|split; [done|split; [done|]]].
    + rewrite Hl1 in Hsv. apply saves_suffix in Hsv. exact Hsv.
    + by eapply NChangedFiles_saved.
Qed.

Lemma Build_saves_before_commands_witness :
  ∃ l1 l2,
    log (Build env0 u_commit w0) = log w0 ++ l1 ++ l2
    ∧ saves l1 = ["/home/u/proj/cmd/main.go"]
    ∧ saves l2 = []
    ∧ runs l2 = ["Build Go Proj"]
    ∧ NChangedFiles (Build env0 u_commit w0) = 0.
Proof. apply (Build_saves_before_commands env0 u_commit w0); [done|reflexivity]. Defined.

(** X10. After [FindOrMakeCmdTab] the tab of the answer is the first
    tab under the name of the command, it shows the buffer of the answer,
    and this buffer is the one that the table has for the command. The
    tabs are those of before, under their labels and in their order, with
    one more tab at the end when no tab had the name. *)
Theorem FindOrMakeCmdTab_shows_buffer
    (cmdNm : string) (sel clearBuf : bool) (w : World) :
  let r := FindOrMakeCmdTab cmdNm sel clearBuf w in
  MainTabs (ge r.1.1.1) !! r.1.2 = Some (cmdNm, Some r.1.1.2)
  ∧ TabByName cmdNm (MainTabs (ge r.1.1.1)) = Some r.1.2
  ∧ table r.1.1.1 !! cmdNm = Some r.1.1.2
  ∧ (MainTabs (ge r.1.1.1)).*1
    = (MainTabs (ge w)).*1
      ++ (if bool_decide (cmdNm ∈ (MainTabs (ge w)).*1) then [] else [cmdNm]).
Proof.
  intros r.
  pose proof (FindOrMakeCmdTab_spec cmdNm sel clearBuf w)
    as (_ & _ & _ & _ & Hidx & Htabs & _).
  pose proof (FindOrMakeCmdTab_Step cmdNm sel clearBuf w) as [_ Ht].
  cbn zeta in *. fold r in Hidx, Htabs, Ht. rewrite Htabs.
  destruct (tabs_with_labels cmdNm (MainTabs (ge w)) r.1.2 (Some r.1.1.2) Hidx)
    as [Hlab _].
  split; [|split; [by apply TabByName_insert|split; [done|]]].
  - apply TabByName_Some in Hidx as [(t & Hlt & _) _].
    apply list_lookup_insert_eq. by eapply lookup_lt_Some.
  - rewrite Hlab. apply tabs_with_labels_eq.
Qed.

(** X11. A second [FindOrMakeCmdTab] for the same command answers the
    same buffer and the same tab, makes no buffer, and leaves the tabs and
    the table as they are, whatever the two calls ask about selecting and
    clearing. *)
Theorem FindOrMakeCmdTab_twice
    (cmdNm : string) (s1 c1 s2 c2 : bool) (w : World) :
  let r1 := FindOrMakeCmdTab cmdNm s1 c1 w in
  let r2 := FindOrMakeCmdTab cmdNm s2 c2 r1.1.1.1 in
  r2.1.1.2 = r1.1.1.2 ∧ r2.1.2 = r1.1.2 ∧ r2.2 = false
  ∧ MainTabs (ge r2.1.1.1) = MainTabs (ge r1.1.1.1)
  ∧ table r2.1.1.1 = table r1.1.1.1.
Proof.
  intros r1 r2.
  destruct (FindOrMakeCmdTab_shows_tab cmdNm s1 c1 w) as (Hat1 & Hidx1 & Ht1).
  fold r1 in Hat1, Hidx1, Ht1. set (w1 := r1.1.1.1) in *.
  pose proof (FindOrMakeCmdTab_spec cmdNm s2 c2 w1)
    as (Hbuf & Hnw & Hc & _ & Hidx & Htabs & _).
  pose proof (FindOrMakeCmdBuf_table cmdNm c2 w1) as (Htab & Hfound & Hmade).
  cbn zeta in *. fold r2 in Hbuf, Hnw, Hc, Hidx, Htabs.
  set (rb := FindOrMakeCmdBuf cmdNm c2 w1) in *.
  assert (Hnw2 : rb.2 = false).
  { destruct rb.2; [|done]. destruct (Hmade eq_refl) as (Hno & _). congruence. }
  destruct (Hfound Hnw2) as (Hyes & _).
  assert (Hb : r2.1.1.2 = r1.1.1.2) by congruence.
  assert (Hw : tabs_with cmdNm (MainTabs (ge w1)) = MainTabs (ge w1))
    by (unfold tabs_with; by rewrite Hidx1, app_nil_r).
  rewrite Hw in Hidx, Htabs.
  assert (Hi : r2.1.2 = r1.1.2) by congruence.
  split; [done|]. split; [done|]. split; [congruence|]. split.
  - rewrite Htabs, Hi, Hb. by apply list_insert_id.
  - unfold table at 1. rewrite Hc. fold (table rb.1.1).
    rewrite Htab. by apply insert_id.
Qed.

(** X12. The invariant of the command tabs is kept by [Build], [Run] and
    [Commit], whatever the user answers: every command buffer is in the
    heap, two commands have two buffers, no two tabs have the same label,
    and a tab that shows a buffer under the name of a command shows the
    buffer of that command. None of the three takes a buffer from a
    command, drops a buffer from the heap, or removes, renames or reorders
    a tab. *)
Theorem Engine_inv_kept `{PathLib} (env : Env) (u : User) (w w' : World) :
  Engine_inv w →
  w' = Build env u w ∨ w' = Run env w ∨ w' = Commit env u w →
  Engine_inv w' ∧ Grows w w'.
Proof.
  intros Hi Hw.
  assert (Step w w') as (Hg & Hinv & _).
  { destruct Hw as [->|[->| ->]];
      [apply Build_Step|apply Run_Step|apply Commit_Step]. }
  auto.
Qed.

Lemma Engine_inv_kept_witness :
  Engine_inv (Commit env0 u_commit w0) ∧ Grows w0 (Commit env0 u_commit w0).
Proof.
  apply (Engine_inv_kept env0 u_commit w0);
    [by apply Engine_inv_start|right; right; reflexivity].
Defined.



(** X14. A key sequence that is given up. With no chord pending, a chord
    that needs a second one, followed by [Escape] or by a chord with which
    it makes no key function, leaves the [Gide] object as it was: both
    chords are marked as processed, nothing is called, and the only events
    are the two status lines. *)
Theorem GideKeys_sequence_aborted `{PathLib} (env : Env) (u : User)
    (k1 k2 : ChordEvent) (w : World) :
  KeySeq1 (ge w) = "" → Chord k1 ≠ "" →
  KeyFun env (Chord k1) "" = KeyFunNeeds2 →
  KeyFun env (Chord k1) (Chord k2) = KeyFunNil ∨ Chord k2 = "Escape" →
  let r1 := GideKeys env u k1 w in
  let r2 := GideKeys env u k2 r1.1 in
  IsProcessed r1.2 = true ∧ IsProcessed r2.2 = true
  ∧ KeySeq1 (ge r1.1) = Chord k1
  ∧ r2.1 = emit (Status ((Chord k1 +:+ " " +:+ Chord k2) +:+ " -- aborted"))
             (emit (Status (Chord k1)) w).
Proof.
  intros Hidle Hne Hk1 Hk2. cbn zeta.
  rewrite (GideKeys_first env u k1 w Hidle Hk1). cbn [fst snd].
  rewrite (GideKeys_second_abort env u k2 _ (Chord k1)) by done.
  cbn [fst snd]. repeat split; try done.
  destruct w as [[] ? ? ? ?]. cbn in Hidle. by subst.
Qed.

Lemma GideKeys_sequence_aborted_witness :
  let k1 := {| Chord := "Control+X"; IsProcessed := false |} in
  let k2 := {| Chord := "Escape"; IsProcessed := false |} in
  IsProcessed (GideKeys env0 u_cancel k1 w0).2 = true
  ∧ IsProcessed (GideKeys env0 u_cancel k2 (GideKeys env0 u_cancel k1 w0).1).2 = true
  ∧ KeySeq1 (ge (GideKeys env0 u_cancel k1 w0).1) = "Control+X"
  ∧ (GideKeys env0 u_cancel k2 (GideKeys env0 u_cancel k1 w0).1).1
    = emit (Status "Control+X Escape -- aborted") (emit (Status "Control+X") w0).
Proof.
  intros k1 k2.
  apply (GideKeys_sequence_aborted env0 u_cancel k1 k2 w0);
    [reflexivity|done|reflexivity|by right].
Defined.

(** X15. A key sequence that is completed. With no chord pending, a chord
    that needs a second one and a second chord, not [Escape], with which it
    makes a key function: the second call does what the function is bound
    to, on the [Gide] object as it was before the first chord, after the two
    status lines; the key function of the toolkit for the second chord is
    not looked at. *)
Theorem GideKeys_sequence_dispatches `{PathLib} (env : Env) (u : User)
    (k1 k2 : ChordEvent) (w : World) :
  KeySeq1 (ge w) = "" → Chord k1 ≠ "" →
  KeyFun env (Chord k1) "" = KeyFunNeeds2 →
  KeyFun env (Chord k1) (Chord k2) ≠ KeyFunNil → Chord k2 ≠ "Escape" →
  IsProcessed k2 = false →
  GideKeys env u k2 (GideKeys env u k1 w).1
  = GideKeys_dispatch env u (KeyFun env (Chord k1) (Chord k2)) k2
      (emit (Status (Chord k1 +:+ " " +:+ Chord k2)) (emit (Status (Chord k1)) w)).
Proof.
  intros Hidle Hne Hk1 Hkf Hesc Hp.
  rewrite (GideKeys_first env u k1 w Hidle Hk1). cbn [fst snd].
  unfold GideKeys. cbn [KeySeq1 ge emit upd_log upd_ge upd_KeySeq1].
  rewrite (bool_decide_eq_false_2 (Chord k1 = "")) by done. cbn [negb].
  rewrite (bool_decide_eq_false_2 (_ = KeyFunNil)) by done.
  rewrite (bool_decide_eq_false_2 (Chord k2 = "Escape")) by done. cbn [orb].
  unfold GideKeys_switch. rewrite Hp. f_equal.
  destruct w as [[] ? ? ? ?]. cbn in Hidle. by subst.
Qed.

Lemma GideKeys_sequence_dispatches_witness :
  let k1 := {| Chord := "Control+X"; IsProcessed := false |} in
  let k2 := {| Chord := "Control+S"; IsProcessed := false |} in
  GideKeys env0 u_cancel k2 (GideKeys env0 u_cancel k1 w0).1
  = (emit (Call "SaveActiveView")
       (emit (Status "Control+X Control+S") (emit (Status "Control+X") w0)),
     SetProcessed k2).
Proof.
  intros k1 k2.
  apply (GideKeys_sequence_dispatches env0 u_cancel k1 k2 w0); done.
Defined.

End Engine_extras.
